(** * HashBrown: cost tables for block-merging segmentations

    A shallow embedding of [HashBrown.py] and the properties of its
    pattern hash, pattern generator, cost table, segmentation translator,
    loss function and block indexer.

    Conventions of the embedding:
    - Integers are [Z]; [//] is [Z.div] (floor division), [range n] is
      [seqZ 0 n] (empty for [n <= 0]).
    - A pattern is the tuple [(position, length)], a pair of [Z].
    - A numpy integer array is a [list Z].
    - A dict with integer keys is a [gmap Z V]; a later insertion at an
      existing key replaces the value.
    - Exceptions are the constructors of [exn]; a function that may raise
      returns a [result].
    - [calculate_pattern_hash] and [translate_segmentation] are compiled by
      numba in nopython mode: a local variable is zero before its first
      assignment, a write to an array is not bounds-checked, and integers
      are 64-bit. The embedding computes in [Z];
      [calculate_pattern_hash_int64] is the same formula with every
      operation wrapped to 64 bits, and the two agree for valid patterns of
      up to [max_blocks] blocks. The theorems that give the value of a key
      of the compiled code carry that bound. *)

From Stdlib Require Import ZArith Lia.
From stdpp Require Import base list sorting gmap.

Local Open Scope Z_scope.

(** ** Exceptions and results *)

Inductive exn : Set :=
| IndexError
| KeyError
| ValueError.

Inductive result (A : Type) : Type :=
| Ok (a : A)
| Raise (e : exn).

Arguments Ok {A} a.
Arguments Raise {A} e.

#[global] Instance result_ret : MRet result := fun A a => Ok a.

#[global] Instance result_bind : MBind result := fun A B k r =>
  match r with
  | Ok a => k a
  | Raise e => Raise e
  end.

(** ** Patterns *)

Definition pattern : Type := Z * Z.

(** A pattern is valid for [n_blocks] blocks when it lies inside the block
    range. *)
Definition valid_pattern (n_blocks : Z) (p : pattern) : Prop :=
  0 <= p.1 /\ 1 <= p.2 /\ p.1 + p.2 <= n_blocks.

(** The number of valid patterns. *)
Definition total_patterns (n_blocks : Z) : Z := n_blocks * (n_blocks + 1) / 2.

(** ** [calculate_pattern_hash] *)

Definition calculate_pattern_hash (pattern_spec : pattern) (arrlen : Z) : Z :=
  let '(pos, length) := pattern_spec in
  (length - 1) * (2 * arrlen - (length - 2)) / 2 + pos.

(** The value of a signed 64-bit integer after wrap-around. *)
Definition int64_wrap (z : Z) : Z := (z + 2 ^ 63) mod 2 ^ 64 - 2 ^ 63.

(** The formula as the compiled function evaluates it: every operation
    on 64-bit integers. *)
Definition calculate_pattern_hash_int64 (pattern_spec : pattern) (arrlen : Z)
  : Z :=
  let '(pos, length) := pattern_spec in
  let hash_ :=
    int64_wrap
      (int64_wrap (int64_wrap (length - 1)
                   * int64_wrap (int64_wrap (2 * arrlen)
                                 - int64_wrap (length - 2)))
       / 2) in
  int64_wrap (hash_ + pos).

(** A number of blocks up to which no operation of the formula leaves the
    64-bit range on a valid pattern. *)
Definition max_blocks : Z := 2 ^ 31.

(** ** [HashBrown.create_pattern_generator] *)

Definition range (n : Z) : list Z := seqZ 0 n.

Definition create_pattern_generator (n_blocks : Z) : list pattern :=
  i_end ← range n_blocks;
  i_start ← range (n_blocks - i_end);
  [(i_start, i_end + 1)].

(** The canonical order: by length first, by position second. *)
Definition pattern_lt (p q : pattern) : Prop :=
  p.2 < q.2 \/ (p.2 = q.2 /\ p.1 < q.1).

(** ** Array indexing

    [a[k]] on a one-dimensional numpy array in interpreted code: a negative
    [k] counts from the end, and an index outside [-len .. len-1] raises
    [IndexError]. *)

Definition norm_index (len : nat) (k : Z) : result nat :=
  if decide (0 <= k < Z.of_nat len) then Ok (Z.to_nat k)
  else if decide (- Z.of_nat len <= k < 0) then Ok (Z.to_nat (k + Z.of_nat len))
  else Raise IndexError.

Definition getitem (a : list Z) (k : Z) : result Z :=
  j ← norm_index (length a) k;
  match a !! j with
  | Some v => Ok v
  | None => Raise IndexError
  end.

(** [a[k] = v] in compiled code: a negative [k] counts from the end, and
    no bounds are checked, so a write outside the array leaves the array
    as it is. *)
Definition setitem (a : list Z) (k : Z) (v : Z) : list Z :=
  if decide (0 <= k) then <[Z.to_nat k := v]> a
  else if decide (- Z.of_nat (length a) <= k)
       then <[Z.to_nat (k + Z.of_nat (length a)) := v]> a
       else a.

(** ** [translate_segmentation]

    The local variables of the function. [pos] and the loop variable [i]
    are zero until their first assignment. *)

Record locals : Type := Locals {
  l_is_free : bool;
  l_length : Z;
  l_pos : Z;
  l_iseg : Z;
  l_i : Z;
  l_store : list Z
}.

(** One iteration of [for i, x in enumerate(arr)]. *)
Definition loop_body (arrlen : Z) (st : locals) (i x : Z) : locals :=
  let '(Locals is_free length pos iseg _ store) := st in
  if decide (x = 1) then
    let '(pos, is_free) := if is_free then (i, false) else (pos, is_free) in
    Locals is_free (length + 1) pos iseg i store
  else
    let '(hash_, length, is_free) :=
      if decide (length > 1)
      then (calculate_pattern_hash (pos, length) arrlen, 1, true)
      else (i, length, is_free) in
    let iseg := iseg + 1 in
    let store := setitem store iseg hash_ in
    Locals is_free length pos iseg i store.

Fixpoint loop (arrlen : Z) (st : locals) (i : Z) (arr : list Z) : locals :=
  match arr with
  | [] => st
  | x :: arr' => loop arrlen (loop_body arrlen st i x) (i + 1) arr'
  end.

(** The result is the returned prefix [store[:iseg + 1]] together with the
    store after the call. The function raises no exception. *)
Definition translate_segmentation (arr store : list Z) : result (list Z * list Z) :=
  let arrlen := Z.of_nat (length arr) + 1 in
  let st := loop arrlen (Locals true 1 0 (-1) 0 store) 0 arr in
  let '(Locals is_free length pos iseg i store) := st in
  let hash_ :=
    if decide (length > 1)
    then calculate_pattern_hash (pos, length) arrlen
    else i + 1 in
  let iseg := iseg + 1 in
  let store := setitem store iseg hash_ in
  Ok (take (Z.to_nat (iseg + 1)) store, store).

(** The decisions that end a pattern: the elements other than 1. *)
Definition closing (arr : list Z) : list Z := filter (λ x, x ≠ 1) arr.

(** The number of keys a decision array gives rise to: one per closing
    decision, and one for the last block. *)
Definition key_count (arr : list Z) : nat := S (length (closing arr)).

(** A list of patterns that covers the blocks [from .. to - 1] from left
    to right, each block once. *)
Fixpoint tiles (from : Z) (ps : list pattern) (to : Z) : Prop :=
  match ps with
  | [] => from = to
  | p :: ps' => p.1 = from /\ 1 <= p.2 /\ tiles (from + p.2) ps' to
  end.

(** Block [b] belongs to pattern [p]. *)
Definition covers (p : pattern) (b : Z) : Prop := p.1 <= b < p.1 + p.2.

(** ** The cost table and the loss function

    Costs are values of a type [V] with the [0] that [sum] starts from and
    the addition it uses; the series is a value of a type [S] that only
    the cost function inspects. *)

Section costs.

Context {V S : Type} (zero : V) (add : V -> V -> V).

(** [sum(hash_table[k] for k in hash_keys)], started from [acc]. *)
Fixpoint sum_lookup (hash_table : gmap Z V) (hash_keys : list Z) (acc : V)
  : result V :=
  match hash_keys with
  | [] => Ok acc
  | k :: ks =>
      match hash_table !! k with
      | Some v => sum_lookup hash_table ks (add acc v)
      | None => Raise KeyError
      end
  end.

(** The result is the loss together with the store after the call. *)
Definition calculate_loss_function (segmentation store : list Z)
    (hash_table : gmap Z V) : result (V * list Z) :=
  '(hash_keys, store) ← translate_segmentation segmentation store;
  loss ← sum_lookup hash_table hash_keys zero;
  Ok (loss, store).

(** Python's [sum] of a list of costs. *)
Definition sum_costs (vs : list V) : V := foldl add zero vs.

(** The attributes of a [HashBrown] object; the argument lists of the two
    callables are part of the closures [hb_func] and [hb_hfunc]. *)
Record HashBrown : Type := mkHashBrown {
  hb_series : S;
  hb_n_blocks : Z;
  hb_string_length : Z;
  hb_func : pattern -> S -> V;
  hb_hfunc : pattern -> Z;
  hb_table : option (gmap Z V)
}.

Definition HashBrown_init (series : S) (n_blocks : Z)
    (func : pattern -> S -> V) (hfunc : pattern -> Z) : HashBrown :=
  mkHashBrown series n_blocks (n_blocks - 1) func hfunc None.

(** The dict comprehension of [create_table]: the patterns are inserted
    in generation order. *)
Definition populate (hfunc : pattern -> Z) (func : pattern -> V)
    (patterns : list pattern) : gmap Z V :=
  foldl (λ table p, <[hfunc p := func p]> table) ∅ patterns.

Definition create_table (self : HashBrown) : HashBrown :=
  let patterns := create_pattern_generator (hb_n_blocks self) in
  let table :=
    populate (hb_hfunc self) (λ p, hb_func self p (hb_series self)) patterns in
  mkHashBrown (hb_series self) (hb_n_blocks self) (hb_string_length self)
    (hb_func self) (hb_hfunc self) (Some table).

End costs.

(** ** [calculate_block_indices]

    [numpy.array_split] with a number of sections: [Ntotal mod Nsections]
    sections of [Ntotal / Nsections + 1] elements, then sections of
    [Ntotal / Nsections] elements, cut at the running sums of the sizes. *)

Fixpoint cumsum_from (acc : nat) (l : list nat) : list nat :=
  match l with
  | [] => []
  | x :: l' => (acc + x)%nat :: cumsum_from (acc + x)%nat l'
  end.

Definition cumsum (l : list nat) : list nat := cumsum_from 0%nat l.

(** [ary[st:end]] for [0 <= st] and [0 <= end]. *)
Definition slice (st end_ : nat) (ary : list Z) : list Z :=
  take (end_ - st)%nat (drop st ary).

Definition section_sizes (Ntotal Nsections : nat) : list nat :=
  let Neach_section := (Ntotal / Nsections)%nat in
  let extras := (Ntotal mod Nsections)%nat in
  [0%nat] ++ replicate extras (Neach_section + 1)%nat
          ++ replicate (Nsections - extras)%nat Neach_section.

Definition array_split (ary : list Z) (indices_or_sections : Z)
  : result (list (list Z)) :=
  let Ntotal := length ary in
  if decide (indices_or_sections <= 0) then Raise ValueError
  else
    let Nsections := Z.to_nat indices_or_sections in
    let div_points := cumsum (section_sizes Ntotal Nsections) in
    Ok ((λ i, slice (div_points !!! i) (div_points !!! (i + 1)%nat) ary)
          <$> seq 0 Nsections).

(** [series_length] is [series.shape[1]], [numpy.arange] of it is
    [seqZ 0 series_length], and a block is the pair [(idcs[0], idcs[-1])] of
    its chunk. *)
Definition calculate_block_indices (series_length : nat) (n_blocks : Z)
  : result (list (Z * Z)) :=
  if decide (n_blocks > Z.of_nat series_length) then Raise IndexError
  else
    chunks ← array_split (seqZ 0 (Z.of_nat series_length)) n_blocks;
    mapM (λ idcs, first ← getitem idcs 0; last ← getitem idcs (-1);
                  Ok (first, last)) chunks.

(** The number of series elements in a block. *)
Definition block_size (b : Z * Z) : Z := b.2 - b.1 + 1.

(** ** Auxiliary definitions for the key formula *)

(** The numerator of the quotient in the key formula. *)
Definition hash_numerator (length arrlen : Z) : Z :=
  (length - 1) * (2 * arrlen - (length - 2)).

(** The first key of the patterns of a given length, when
    [arrlen = n_blocks]. *)
Definition length_offset (n_blocks length : Z) : Z :=
  calculate_pattern_hash (0, length) n_blocks.

(** ** Auxiliary definitions for the scan of [translate_segmentation] *)

(** The keys of a list of patterns. *)
Definition keys_of (arrlen : Z) (ps : list pattern) : list Z :=
  (λ p, calculate_pattern_hash p arrlen) <$> ps.

(** The decisions inside pattern [p] are all 1: its blocks are merged. *)
Definition is_run (arr : list Z) (p : pattern) : Prop :=
  forall j, p.1 <= j < p.1 + p.2 - 1 -> arr !! Z.to_nat j = Some 1.

(** The decision after the last block of pattern [p] is not 1. *)
Definition closed_at (arr : list Z) (p : pattern) : Prop :=
  exists x, arr !! Z.to_nat (p.1 + p.2 - 1) = Some x /\ x <> 1.

(** The state of the scan of [arr0] before the element of index [i] is
    read, when the keys of the patterns [ps] have been produced so far: the
    store holds as many of them as fit, and the patterns are closed runs
    that cover the blocks before the open run, or before [i] when no run
    is open. *)
Definition loop_inv (arrlen : Z) (arr0 store0 : list Z) (i : Z)
    (ps : list pattern) (st : locals) : Prop :=
  l_iseg st = Z.of_nat (length ps) - 1
  /\ l_store st
     = take (length store0) (keys_of arrlen ps ++ drop (length ps) store0)
  /\ (0 < i -> l_i st = i - 1)
  /\ Forall (λ p, is_run arr0 p /\ closed_at arr0 p) ps
  /\ ((l_length st = 1 /\ l_is_free st = true /\ tiles 0 ps i)
      \/ (1 < l_length st /\ l_is_free st = false /\
          tiles 0 ps (l_pos st)
          /\ l_pos st + l_length st - 1 = i
          /\ is_run arr0 (l_pos st, l_length st))).

(** The sum of the lengths of a list of patterns. *)
Definition total_length (ps : list pattern) : Z :=
  foldr (λ p acc, p.2 + acc) 0 ps.

(** ** Auxiliary definitions for [calculate_block_indices] *)

(** The index at which section [i] starts when [Ntotal] elements are split
    into [Nsections] sections. *)
Definition section_start (Ntotal Nsections i : nat) : nat :=
  (i * (Ntotal / Nsections) + i `min` (Ntotal mod Nsections))%nat.

(** ** Auxiliary definitions on decision arrays *)

(** The merge decisions of an array: its elements equal to 1. *)
Definition merges (arr : list Z) : list Z := filter (λ x, x = 1) arr.

(** A decision array whose elements are 0 or 1. *)
Definition binary (arr : list Z) : Prop := Forall (λ x, x = 0 \/ x = 1) arr.

(** The array with every element other than 1 replaced by 0. *)
Definition binarize (arr : list Z) : list Z :=
  (λ x, if decide (x = 1) then 1 else 0) <$> arr.

(** * Properties *)

(** ** Arithmetic of the key formula *)

Section hash_arith.

Lemma consecutive_even (k : Z) : exists q, k * (k + 1) = 2 * q.
Proof.
  destruct (Z.Even_or_Odd k) as [[m ->] | [m ->]].
  - exists (m * (2 * m + 1)). ring.
  - exists ((2 * m + 1) * (m + 1)). ring.
Qed.

Lemma hash_numerator_even (length arrlen : Z) :
  exists q, hash_numerator length arrlen = 2 * q.
Proof.
  destruct (consecutive_even (length - 2)) as [q Hq].
  exists (arrlen * (length - 1) - q). unfold hash_numerator.
  replace (length - 2 + 1) with (length - 1) in Hq by ring.
  lia.
Qed.

(** Twice the key, without a quotient. *)
Lemma calculate_pattern_hash_double (pos length arrlen : Z) :
  2 * calculate_pattern_hash (pos, length) arrlen
  = hash_numerator length arrlen + 2 * pos.
Proof.
  unfold calculate_pattern_hash. fold (hash_numerator length arrlen).
  destruct (hash_numerator_even length arrlen) as [q ->].
  rewrite (Z.mul_comm 2 q), Z.div_mul by lia. ring.
Qed.

Lemma calculate_pattern_hash_offset (pos length n : Z) :
  calculate_pattern_hash (pos, length) n = length_offset n length + pos.
Proof.
  unfold length_offset.
  pose proof (calculate_pattern_hash_double pos length n).
  pose proof (calculate_pattern_hash_double 0 length n). lia.
Qed.

Lemma length_offset_1 (n : Z) : length_offset n 1 = 0.
Proof. reflexivity. Qed.

Lemma length_offset_succ (n length : Z) :
  length_offset n (length + 1) = length_offset n length + (n - length + 1).
Proof.
  unfold length_offset.
  pose proof (calculate_pattern_hash_double 0 length n) as H1.
  pose proof (calculate_pattern_hash_double 0 (length + 1) n) as H2.
  unfold hash_numerator in *. lia.
Qed.

Lemma total_patterns_double (n : Z) : 2 * total_patterns n = n * (n + 1).
Proof.
  unfold total_patterns. destruct (consecutive_even n) as [q ->].
  rewrite (Z.mul_comm 2 q), Z.div_mul by lia. ring.
Qed.

Lemma length_offset_last (n : Z) : length_offset n (n + 1) = total_patterns n.
Proof.
  pose proof (total_patterns_double n).
  pose proof (calculate_pattern_hash_double 0 (n + 1) n) as H2.
  unfold length_offset, hash_numerator in *. lia.
Qed.

Lemma length_offset_mono (n l1 l2 : Z) :
  1 <= l1 -> l1 <= l2 -> l2 <= n + 1 ->
  length_offset n l1 <= length_offset n l2.
Proof.
  intros H1 H12 H2.
  pose proof (calculate_pattern_hash_double 0 l1 n) as E1.
  pose proof (calculate_pattern_hash_double 0 l2 n) as E2.
  unfold length_offset, hash_numerator in *. nia.
Qed.

End hash_arith.

(** ** The pattern generator *)

Section generator.

Lemma elem_of_create_pattern_generator (n : Z) (p : pattern) :
  p ∈ create_pattern_generator n ↔ valid_pattern n p.
Proof.
  unfold create_pattern_generator, range, valid_pattern.
  destruct p as [pos len]; simpl. split.
  - intros (i_end & Hin & Hend)%list_elem_of_bind.
    apply list_elem_of_bind in Hin as (i_start & Hin & Hstart).
    apply list_elem_of_singleton in Hin. injection Hin as -> ->.
    apply elem_of_seqZ in Hend, Hstart. lia.
  - intros (Hpos & Hlen & Hsum).
    apply list_elem_of_bind. exists (len - 1). split.
    + apply list_elem_of_bind. exists pos. split.
      * apply list_elem_of_singleton. f_equal. lia.
      * apply elem_of_seqZ. lia.
    + apply elem_of_seqZ. lia.
Qed.

Lemma StronglySorted_seqZ (m n : Z) : StronglySorted Z.lt (seqZ m n).
Proof.
  destruct (decide (0 <= n)) as [Hn|Hn]; [|rewrite seqZ_nil by lia; constructor].
  rewrite <- (Z2Nat.id n) by done. generalize (Z.to_nat n) as k. clear.
  intros k. induction k as [|k IH].
  - rewrite seqZ_nil by lia. constructor.
  - rewrite seqZ_S. apply StronglySorted_app_2; [|done|repeat constructor].
    intros x y Hx%elem_of_seqZ Hy%list_elem_of_singleton. lia.
Qed.

Lemma StronglySorted_bind {A B : Type} (Q : relation A) (R : relation B)
    (f : A -> list B) (l : list A) :
  StronglySorted Q l ->
  (forall y, y ∈ l -> StronglySorted R (f y)) ->
  (forall y y' b b', Q y y' -> b ∈ f y -> b' ∈ f y' -> R b b') ->
  StronglySorted R (l ≫= f).
Proof.
  intros Hl Hin Hout. induction Hl as [|y l Hl IH Hy]; csimpl.
  - constructor.
  - apply StronglySorted_app_2.
    + intros b b' Hb (y' & Hb' & Hy')%list_elem_of_bind.
      rewrite Forall_forall in Hy. eauto.
    + apply Hin. left.
    + apply IH. intros. apply Hin. by right.
Qed.

Lemma StronglySorted_irrefl_NoDup {A : Type} (R : relation A) (l : list A) :
  (forall x, ~ R x x) -> StronglySorted R l -> NoDup l.
Proof.
  intros Hirr. induction 1 as [|x l Hl IH Hx]; constructor; [|done].
  intros Hin. rewrite Forall_forall in Hx. by eapply Hirr, Hx.
Qed.

Lemma create_pattern_generator_sorted (n : Z) :
  StronglySorted pattern_lt (create_pattern_generator n).
Proof.
  unfold create_pattern_generator, range.
  apply (StronglySorted_bind Z.lt); [apply StronglySorted_seqZ|..].
  - intros i_end _.
    apply (StronglySorted_bind Z.lt); [apply StronglySorted_seqZ|..].
    + intros. repeat constructor.
    + intros a a' b b' Ha ->%list_elem_of_singleton ->%list_elem_of_singleton.
      right. simpl. lia.
  - intros e e' b b' He (a & ->%list_elem_of_singleton & _)%list_elem_of_bind
      (a' & ->%list_elem_of_singleton & _)%list_elem_of_bind.
    left. simpl. lia.
Qed.

(** The keys of the generated patterns, in generation order, count up
    from 0 when the hash is taken with [arrlen = n_blocks]. *)
Lemma hash_create_pattern_generator (n : Z) :
  0 <= n ->
  (λ p, calculate_pattern_hash p n) <$> create_pattern_generator n
  = seqZ 0 (total_patterns n).
Proof.
  intros Hn. rewrite <- length_offset_last. unfold create_pattern_generator, range.
  assert (forall k : nat, Z.of_nat k <= n ->
    (λ p, calculate_pattern_hash p n) <$>
      (seqZ 0 (Z.of_nat k) ≫= λ i_end, seqZ 0 (n - i_end) ≫= λ i_start, [(i_start, i_end + 1)])
    = seqZ 0 (length_offset n (Z.of_nat k + 1))) as Hk.
  { intros k. induction k as [|k IH]; intros Hle.
    - by rewrite seqZ_nil.
    - rewrite seqZ_S, bind_app, fmap_app, IH by lia. csimpl.
      rewrite app_nil_r, Z.add_0_l.
      replace (Z.of_nat (S k) + 1) with (Z.of_nat k + 1 + 1) by lia.
      rewrite (length_offset_succ n (Z.of_nat k + 1)), seqZ_app.
      + f_equal.
        replace (seqZ (0 + length_offset n (Z.of_nat k + 1)) (n - (Z.of_nat k + 1) + 1))
          with (Z.add (length_offset n (Z.of_nat k + 1)) <$> seqZ 0 (n - Z.of_nat k))
          by (rewrite fmap_add_seqZ; f_equal; lia).
        generalize (seqZ 0 (n - Z.of_nat k)). intros l.
        induction l as [|a l IHl]; csimpl; [done|].
        f_equal; [apply calculate_pattern_hash_offset | apply IHl].
      + rewrite <- (length_offset_1 n). apply length_offset_mono; lia.
      + lia. }
  specialize (Hk (Z.to_nat n)). rewrite Z2Nat.id in Hk by done. apply Hk. lia.
Qed.

End generator.

(** ** The key formula as a bijection *)

Section bijection.

Lemma length_offset_nonneg (n len : Z) :
  1 <= len -> len <= n + 1 -> 0 <= length_offset n len.
Proof.
  intros. rewrite <- (length_offset_1 n). apply length_offset_mono; lia.
Qed.

Lemma calculate_pattern_hash_range (n : Z) (p : pattern) :
  valid_pattern n p ->
  length_offset n p.2 <= calculate_pattern_hash p n < length_offset n (p.2 + 1).
Proof.
  destruct p as [pos len]. intros (Hpos & Hlen & Hsum); cbn [fst snd] in *.
  rewrite calculate_pattern_hash_offset, length_offset_succ. lia.
Qed.

Lemma calculate_pattern_hash_inj (n : Z) (p q : pattern) :
  valid_pattern n p -> valid_pattern n q ->
  calculate_pattern_hash p n = calculate_pattern_hash q n -> p = q.
Proof.
  intros Hp Hq Heq.
  pose proof (calculate_pattern_hash_range n p Hp) as Rp.
  pose proof (calculate_pattern_hash_range n q Hq) as Rq.
  destruct p as [a l1], q as [b l2].
  destruct Hp as (Ha & Hl1 & Hs1), Hq as (Hb & Hl2 & Hs2); cbn [fst snd] in *.
  assert (l1 = l2) as ->.
  { destruct (Z.lt_trichotomy l1 l2) as [Hlt | [-> | Hlt]]; [|done|].
    - pose proof (length_offset_mono n (l1 + 1) l2). lia.
    - pose proof (length_offset_mono n (l2 + 1) l1). lia. }
  rewrite !calculate_pattern_hash_offset in Heq. f_equal. lia.
Qed.

End bijection.

(** C3: for [n_blocks >= 1] the generator yields [n_blocks*(n_blocks+1)/2]
    patterns, a pattern is yielded exactly when it is valid, none is yielded
    twice, and the patterns come by increasing length and, within a length,
    by increasing position. *)
Theorem create_pattern_generator_canonical (n_blocks : Z) :
  1 <= n_blocks ->
  Z.of_nat (length (create_pattern_generator n_blocks))
    = n_blocks * (n_blocks + 1) / 2
  /\ (forall p, p ∈ create_pattern_generator n_blocks <-> valid_pattern n_blocks p)
  /\ NoDup (create_pattern_generator n_blocks)
  /\ StronglySorted pattern_lt (create_pattern_generator n_blocks).
Proof.
  intros Hn. split; [|split; [|split]].
  - rewrite <- (length_fmap (λ p, calculate_pattern_hash p n_blocks)).
    rewrite hash_create_pattern_generator, length_seqZ by lia.
    fold (total_patterns n_blocks). rewrite Z2Nat.id; [done|].
    pose proof (total_patterns_double n_blocks). nia.
  - apply elem_of_create_pattern_generator.
  - apply (StronglySorted_irrefl_NoDup pattern_lt).
    + intros [a l]. unfold pattern_lt. simpl. lia.
    + apply create_pattern_generator_sorted.
  - apply create_pattern_generator_sorted.
Qed.

Lemma create_pattern_generator_canonical_witness :
  1 <= 3 /\ Z.of_nat (length (create_pattern_generator 3)) = 3 * (3 + 1) / 2.
Proof.
  split; [lia|]. apply (create_pattern_generator_canonical 3). lia.
Defined.

(** C1, as stated, fails: with [arrlen = n_blocks - 1] the two valid
    patterns [(1, 1)] and [(0, 2)] of a space of two blocks get the same
    key. *)
Lemma pattern_hash_string_length_collision :
  ~ (forall n_blocks p q, 1 <= n_blocks ->
       valid_pattern n_blocks p -> valid_pattern n_blocks q ->
       calculate_pattern_hash p (n_blocks - 1)
         = calculate_pattern_hash q (n_blocks - 1) -> p = q).
Proof.
  intros H. specialize (H 2 (1, 1) (0, 2)).
  unfold valid_pattern in H. simpl in H.
  assert ((1, 1) = (0, 2)) as Heq by (apply H; (lia || reflexivity)).
  discriminate Heq.
Qed.

(** C1, amended: for up to [max_blocks] blocks and with
    [arrlen = n_blocks], the value that [translate_segmentation] passes, the
    key formula maps the valid patterns one-to-one onto
    [0 .. n_blocks*(n_blocks+1)/2 - 1], and the product that the formula
    halves is even for every valid pattern. *)
Theorem calculate_pattern_hash_bijection (n_blocks : Z) :
  1 <= n_blocks <= max_blocks ->
  (forall p, valid_pattern n_blocks p ->
     0 <= calculate_pattern_hash p n_blocks < n_blocks * (n_blocks + 1) / 2)
  /\ (forall p q, valid_pattern n_blocks p -> valid_pattern n_blocks q ->
        calculate_pattern_hash p n_blocks = calculate_pattern_hash q n_blocks ->
        p = q)
  /\ (forall k, 0 <= k < n_blocks * (n_blocks + 1) / 2 ->
        exists p, valid_pattern n_blocks p /\ calculate_pattern_hash p n_blocks = k)
  /\ (forall p, valid_pattern n_blocks p ->
        ((p.2 - 1) * (2 * n_blocks - (p.2 - 2))) mod 2 = 0
        /\ 2 * (calculate_pattern_hash p n_blocks - p.1)
           = (p.2 - 1) * (2 * n_blocks - (p.2 - 2))).
Proof.
  intros Hn. fold (total_patterns n_blocks). split; [|split; [|split]].
  - intros p Hp. pose proof (calculate_pattern_hash_range n_blocks p Hp) as Hr.
    destruct p as [pos len]. destruct Hp as (Hpos & Hlen & Hsum); cbn [fst snd] in *.
    pose proof (length_offset_nonneg n_blocks len).
    pose proof (length_offset_mono n_blocks (len + 1) (n_blocks + 1)).
    rewrite length_offset_last in *. lia.
  - apply calculate_pattern_hash_inj.
  - intros k Hk.
    assert (k ∈ (λ p, calculate_pattern_hash p n_blocks)
                  <$> create_pattern_generator n_blocks) as Hin.
    { rewrite hash_create_pattern_generator by lia. apply elem_of_seqZ. lia. }
    apply list_elem_of_fmap in Hin as (p & -> & Hp).
    exists p. split; [|done]. by apply elem_of_create_pattern_generator.
  - intros [pos len] _. cbn [fst snd]. fold (hash_numerator len n_blocks). split.
    + destruct (hash_numerator_even len n_blocks) as [q ->].
      rewrite Z.mul_comm. apply Z.mod_mul. lia.
    + pose proof (calculate_pattern_hash_double pos len n_blocks). lia.
Qed.

Lemma calculate_pattern_hash_bijection_witness :
  1 <= 3 <= max_blocks /\
  (forall p q, valid_pattern 3 p -> valid_pattern 3 q ->
     calculate_pattern_hash p 3 = calculate_pattern_hash q 3 -> p = q).
Proof.
  assert (1 <= 3 <= max_blocks) as Hn by (unfold max_blocks; lia).
  split; [exact Hn|]. apply (calculate_pattern_hash_bijection 3 Hn).
Defined.

(** ** The scan of [translate_segmentation] *)

Section scan.

Lemma calculate_pattern_hash_singleton (i arrlen : Z) :
  calculate_pattern_hash (i, 1) arrlen = i.
Proof. reflexivity. Qed.

Lemma tiles_snoc (a b len : Z) (ps : list pattern) :
  tiles a ps b -> 1 <= len -> tiles a (ps ++ [(b, len)]) (b + len).
Proof.
  revert a. induction ps as [|p ps IH]; intros a; simpl.
  - intros ->. auto.
  - intros (Hp & Hlen & Hrest) Hl. auto.
Qed.

Lemma tiles_total_length (a b : Z) (ps : list pattern) :
  tiles a ps b -> a + total_length ps = b.
Proof.
  revert a. induction ps as [|p ps IH]; intros a; simpl.
  - lia.
  - intros (Hp & Hlen & Hrest). apply IH in Hrest. lia.
Qed.

Lemma tiles_length_le (a b : Z) (ps : list pattern) :
  tiles a ps b -> a + Z.of_nat (length ps) <= b.
Proof.
  revert a. induction ps as [|p ps IH]; intros a; simpl.
  - lia.
  - intros (Hp & Hlen & Hrest). apply IH in Hrest. lia.
Qed.

Lemma tiles_valid (a b : Z) (ps : list pattern) (p : pattern) :
  tiles a ps b -> p ∈ ps -> a <= p.1 /\ 1 <= p.2 /\ p.1 + p.2 <= b.
Proof.
  revert a. induction ps as [|q ps IH]; intros a; simpl.
  - intros _ Hin. inversion Hin.
  - intros (Hq & Hlen & Hrest) Hin.
    pose proof (tiles_length_le _ _ _ Hrest).
    apply elem_of_cons in Hin as [-> | Hin]; [lia|].
    specialize (IH _ Hrest Hin). lia.
Qed.

(** Every block of the range lies in exactly one pattern of a tiling. *)
Lemma tiles_covers_once (a b : Z) (ps : list pattern) (blk : Z) :
  tiles a ps b -> a <= blk < b ->
  exists k p, ps !! k = Some p /\ covers p blk /\
    forall k' p', ps !! k' = Some p' -> covers p' blk -> k' = k.
Proof.
  revert a. induction ps as [|q ps IH]; intros a; simpl.
  - lia.
  - intros (Hq & Hlen & Hrest) Hblk.
    destruct (decide (blk < a + q.2)) as [Hin | Hout].
    + exists 0%nat, q. split; [done|]. split; [unfold covers; lia|].
      intros [|k'] p' Hk' Hc; [done|]. simpl in Hk'.
      apply list_elem_of_lookup_2 in Hk'.
      pose proof (tiles_valid _ _ _ _ Hrest Hk'). unfold covers in Hc. lia.
    + destruct (IH _ Hrest) as (k & p & Hk & Hc & Huniq); [lia|].
      exists (S k), p. split; [done|]. split; [done|].
      intros [|k'] p' Hk' Hc'; simpl in Hk'.
      * injection Hk' as <-. unfold covers in Hc'. lia.
      * f_equal. eauto.
Qed.

Lemma length_keys_of (arrlen : Z) (ps : list pattern) :
  length (keys_of arrlen ps) = length ps.
Proof. apply length_fmap. Qed.

Lemma setitem_next (keys store0 : list Z) (h : Z) :
  setitem (take (length store0) (keys ++ drop (length keys) store0))
    (Z.of_nat (length keys)) h
  = take (length store0) ((keys ++ [h]) ++ drop (S (length keys)) store0).
Proof.
  unfold setitem. rewrite decide_True by lia. rewrite Nat2Z.id.
  destruct (decide (length keys < length store0)%nat) as [Hroom | Hfull].
  - rewrite !take_ge by (rewrite !length_app, !length_drop; cbn; lia).
    rewrite insert_app_r_alt, Nat.sub_diag by lia.
    replace (S (length keys)) with (length keys + 1)%nat by lia.
    rewrite <- drop_drop, <- app_assoc.
    destruct (drop (length keys) store0) eqn:Hd; [|done].
    apply (f_equal length) in Hd. rewrite length_drop in Hd. cbn in Hd. lia.
  - rewrite list_insert_ge by (rewrite length_take; lia).
    rewrite <- !app_assoc, !take_app_le by lia. done.
Qed.

End scan.

Section translate.

Context (arrlen : Z) (arr0 store0 : list Z).

(** Reading a 1 writes nothing. *)
Lemma loop_body_one (i : Z) (ps : list pattern) (st : locals) :
  0 <= i -> arr0 !! Z.to_nat i = Some 1 ->
  loop_inv arrlen arr0 store0 i ps st ->
  loop_inv arrlen arr0 store0 (i + 1) ps (loop_body arrlen st i 1).
Proof.
  intros Hi Hx (Hseg & Hstore & Hloc & Hruns & Hopen).
  destruct st as [is_free len pos iseg li store]; cbn [l_is_free l_length
    l_pos l_iseg l_i l_store] in *.
  unfold loop_body. rewrite decide_True by done.
  assert (0 < i + 1 -> i = i + 1 - 1) as Hloc' by lia.
  destruct Hopen as [(-> & -> & Ht) | (Hgt & -> & Ht & Hp & Hrun)].
  - refine (conj Hseg (conj Hstore (conj Hloc' (conj Hruns _)))).
    right. cbn. split; [lia|]. split; [done|].
    split; [done|]. split; [lia|].
    intros j Hj. cbn in Hj. by replace j with i by lia.
  - refine (conj Hseg (conj Hstore (conj Hloc' (conj Hruns _)))).
    right. cbn. split; [lia|]. split; [done|].
    split; [done|]. split; [lia|].
    intros j Hj. cbn in Hj. destruct (decide (j = i)) as [-> | Hne]; [done|].
    apply Hrun. cbn. lia.
Qed.

(** Reading anything else produces the key of one more pattern. *)
Lemma loop_body_other (i x : Z) (ps : list pattern) (st : locals) :
  0 <= i -> arr0 !! Z.to_nat i = Some x -> x <> 1 ->
  loop_inv arrlen arr0 store0 i ps st ->
  exists p, loop_inv arrlen arr0 store0 (i + 1) (ps ++ [p])
              (loop_body arrlen st i x).
Proof.
  intros Hi Hix Hx (Hseg & Hstore & Hloc & Hruns & Hopen).
  destruct st as [is_free len pos iseg li store]; cbn [l_is_free l_length
    l_pos l_iseg l_i l_store] in *.
  unfold loop_body. rewrite decide_False by done.
  assert (iseg + 1 = Z.of_nat (length ps)) as Hnext by lia.
  pose proof (setitem_next (keys_of arrlen ps) store0) as Hset.
  rewrite length_keys_of in Hset.
  assert (0 < i + 1 -> i = i + 1 - 1) as Hloc' by lia.
  assert (forall p, iseg + 1 = Z.of_nat (length (ps ++ [p])) - 1) as Hseg'
    by (intros p; rewrite length_app; cbn; lia).
  assert (forall p, take (length store0)
                      ((keys_of arrlen ps ++ [calculate_pattern_hash p arrlen])
                       ++ drop (S (length ps)) store0)
                    = take (length store0)
                        (keys_of arrlen (ps ++ [p])
                         ++ drop (length (ps ++ [p])) store0)) as Hstore'.
  { intros p. unfold keys_of. rewrite fmap_app, length_app. cbn.
    do 3 f_equal. lia. }
  destruct Hopen as [(-> & -> & Ht) | (Hgt & -> & Ht & Hp & Hrun)].
  - rewrite decide_False by lia. cbn [fst snd].
    rewrite Hstore, Hnext, Hset.
    exists (i, 1). rewrite <- Hnext.
    refine (conj (Hseg' _) (conj (Hstore' (i, 1)) (conj Hloc' (conj _ _)))).
    + apply Forall_app. split; [done|]. apply Forall_singleton. split.
      * intros j Hj. cbn in Hj. lia.
      * exists x. cbn. by replace (i + 1 - 1) with i by lia.
    + left. split; [done|]. split; [done|]. by apply tiles_snoc.
  - rewrite decide_True by lia. cbn [fst snd].
    rewrite Hstore, Hnext, Hset.
    exists (pos, len). rewrite <- Hnext.
    refine (conj (Hseg' _) (conj (Hstore' (pos, len)) (conj Hloc' (conj _ _)))).
    + apply Forall_app. split; [done|]. apply Forall_singleton. split; [done|].
      exists x. cbn. by replace (pos + len - 1) with i by lia.
    + left. split; [done|]. split; [done|].
      replace (i + 1) with (pos + len) by lia. apply tiles_snoc; [done|lia].
Qed.

Lemma closing_cons_one (arr : list Z) : closing (1 :: arr) = closing arr.
Proof. unfold closing. apply filter_cons_False. intros H. by apply H. Qed.

Lemma closing_cons_other (x : Z) (arr : list Z) :
  x <> 1 -> closing (x :: arr) = x :: closing arr.
Proof. intros Hx. unfold closing. by apply filter_cons_True. Qed.

Lemma drop_cons_inv (n : nat) (x : Z) (arr' : list Z) :
  drop n arr0 = x :: arr' -> arr0 !! n = Some x /\ drop (S n) arr0 = arr'.
Proof.
  intros Hd. split.
  - rewrite <- (Nat.add_0_r n), <- lookup_drop, Hd. done.
  - replace (S n) with (n + 1)%nat by lia. by rewrite <- drop_drop, Hd.
Qed.

Lemma loop_inv_run (arr : list Z) (i : Z) (ps : list pattern) (st : locals) :
  0 <= i -> drop (Z.to_nat i) arr0 = arr ->
  loop_inv arrlen arr0 store0 i ps st ->
  exists ps',
    loop_inv arrlen arr0 store0 (i + Z.of_nat (length arr)) (ps ++ ps')
      (loop arrlen st i arr)
    /\ length ps' = length (closing arr).
Proof.
  revert i ps st. induction arr as [|x arr IH]; intros i ps st Hi Hd Hinv.
  - exists []. cbn. rewrite app_nil_r, Z.add_0_r. done.
  - replace (i + Z.of_nat (length (x :: arr)))
      with (i + 1 + Z.of_nat (length arr)) by (cbn [length]; lia).
    apply drop_cons_inv in Hd as [Hix Hd].
    replace (S (Z.to_nat i)) with (Z.to_nat (i + 1)) in Hd by lia.
    cbn [loop]. destruct (decide (x = 1)) as [-> | Hx].
    + rewrite closing_cons_one.
      pose proof (loop_body_one i ps st Hi Hix Hinv) as Hinv1.
      destruct (IH (i + 1) ps _ ltac:(lia) Hd Hinv1) as (ps' & Hinv' & Hlen').
      exists ps'. by split.
    + rewrite closing_cons_other by done. cbn [length].
      destruct (loop_body_other i x ps st Hi Hix Hx Hinv) as (p & Hinv1).
      destruct (IH (i + 1) (ps ++ [p]) _ ltac:(lia) Hd Hinv1)
        as (ps' & Hinv' & Hlen').
      exists (p :: ps'). rewrite <- app_assoc in Hinv'.
      split; [done|]. cbn. by f_equal.
Qed.

End translate.

Section translate_result.

(** On the empty array the last-element branch reads [i], which is still
    zero, and writes the key 1. *)
Lemma translate_segmentation_empty (store : list Z) :
  translate_segmentation [] store
  = Ok (take 1 (<[0%nat := 1]> store), <[0%nat := 1]> store).
Proof. reflexivity. Qed.

(** On a non-empty array the function produces the keys of a tiling of the
    blocks by runs of merges; the store and the returned prefix hold as
    many of them as the store has room for. *)
Lemma translate_segmentation_any_store (arr store : list Z) :
  arr <> [] ->
  exists ps,
    translate_segmentation arr store
    = Ok (take (length store) (keys_of (Z.of_nat (length arr) + 1) ps),
          take (length store)
            (keys_of (Z.of_nat (length arr) + 1) ps
             ++ drop (key_count arr) store))
    /\ length ps = key_count arr
    /\ tiles 0 ps (Z.of_nat (length arr) + 1)
    /\ Forall (λ p, is_run arr p /\
                   (p.1 + p.2 < Z.of_nat (length arr) + 1 -> closed_at arr p)) ps.
Proof.
  intros Hne. unfold key_count.
  set (n := Z.of_nat (length arr) + 1).
  assert (loop_inv n arr store 0 [] (Locals true 1 0 (-1) 0 store)) as Hinit.
  { unfold loop_inv; cbn. split; [done|]. split; [by rewrite take_ge|].
    split; [lia|]. split; [constructor|]. by left. }
  destruct (loop_inv_run n arr store arr 0 [] _ (Z.le_refl 0) eq_refl Hinit)
    as (ps & Hinv & Hlen).
  cbn [app] in Hinv. rewrite Z.add_0_l in Hinv.
  destruct Hinv as (Hseg & Hstore & Hloc & Hruns & Hopen).
  apply (Forall_impl _ (λ p, is_run arr p /\ (p.1 + p.2 < n -> closed_at arr p)))
    in Hruns; [|by intros p [? ?]].
  unfold translate_segmentation. fold n.
  destruct (loop n _ 0 arr) as [is_free len pos iseg li st_store];
    cbn [l_is_free l_length l_pos l_iseg l_i l_store] in *.
  assert (iseg + 1 = Z.of_nat (length ps)) as Hnext by lia.
  pose proof (setitem_next (keys_of n ps) store) as Hset.
  rewrite length_keys_of in Hset.
  assert (0 < Z.of_nat (length arr)) as Hpos by (destruct arr; [done|cbn; lia]).
  assert (forall p,
            take (Z.to_nat (Z.of_nat (length ps) + 1))
              (take (length store)
                 ((keys_of n ps ++ [calculate_pattern_hash p n])
                  ++ drop (S (length ps)) store))
            = take (length store) (keys_of n (ps ++ [p]))) as Htake.
  { intros p. unfold keys_of. rewrite fmap_app. cbn [fmap list_fmap].
    set (ks := ((λ q, calculate_pattern_hash q n) <$> ps)
               ++ [calculate_pattern_hash p n]).
    assert (length ks = S (length ps)) as Hks
      by (unfold ks; rewrite length_app, length_fmap; cbn; lia).
    replace (Z.to_nat (Z.of_nat (length ps) + 1)) with (length ks) by lia.
    rewrite take_take.
    destruct (decide (length ks <= length store)%nat) as [Hroom | Hfull].
    - rewrite Nat.min_l, take_app_length by done. by rewrite take_ge.
    - rewrite Nat.min_r by lia. by rewrite take_app_le by lia. }
  destruct Hopen as [(-> & -> & Ht) | (Hgt & -> & Ht & Hp & Hlast)].
  - rewrite decide_False by lia. rewrite (Hloc Hpos).
    rewrite Hstore, Hnext, Hset.
    exists (ps ++ [(Z.of_nat (length arr), 1)]).
    replace (Z.of_nat (length arr) - 1 + 1)
      with (calculate_pattern_hash (Z.of_nat (length arr), 1) n)
      by (rewrite calculate_pattern_hash_singleton; lia).
    rewrite Htake, Hlen. split; [|split; [|split]].
    + do 3 f_equal. unfold keys_of. by rewrite fmap_app.
    + rewrite length_app. cbn. lia.
    + by apply tiles_snoc.
    + apply Forall_app. split; [done|]. apply Forall_singleton. split.
      * intros j Hj. cbn in Hj. lia.
      * cbn. lia.
  - rewrite decide_True by lia.
    rewrite Hstore, Hnext, Hset.
    exists (ps ++ [(pos, len)]).
    rewrite Htake, Hlen. split; [|split; [|split]].
    + do 3 f_equal. unfold keys_of. by rewrite fmap_app.
    + rewrite length_app. cbn. lia.
    + replace n with (pos + len) by lia. apply tiles_snoc; [done|lia].
    + apply Forall_app. split; [done|]. apply Forall_singleton. split; [done|].
      cbn. lia.
Qed.

(** With room for the keys, the function returns them all, written over
    the front of the store. *)
Lemma translate_segmentation_nonempty (arr store : list Z) :
  arr <> [] -> (key_count arr <= length store)%nat ->
  exists ps,
    translate_segmentation arr store
    = Ok (keys_of (Z.of_nat (length arr) + 1) ps,
          keys_of (Z.of_nat (length arr) + 1) ps ++ drop (key_count arr) store)
    /\ length ps = key_count arr
    /\ tiles 0 ps (Z.of_nat (length arr) + 1)
    /\ Forall (λ p, is_run arr p /\
                   (p.1 + p.2 < Z.of_nat (length arr) + 1 -> closed_at arr p)) ps.
Proof.
  intros Hne Hfit.
  destruct (translate_segmentation_any_store arr store Hne)
    as (ps & Hrun & Hlen & Ht & Hruns).
  exists ps. split; [|done]. rewrite Hrun.
  rewrite !take_ge; [done| |].
  - rewrite length_app, length_keys_of, length_drop. lia.
  - rewrite length_keys_of. lia.
Qed.

End translate_result.

(** ** The cost table *)

Section table.

Context {V : Type} (hfunc : pattern -> Z) (func : pattern -> V).

Lemma populate_snoc (patterns : list pattern) (p : pattern) :
  populate hfunc func (patterns ++ [p])
  = <[hfunc p := func p]> (populate hfunc func patterns).
Proof. unfold populate. by rewrite foldl_app. Qed.

(** A key holds the cost of the last pattern that hashes to it. *)
Lemma populate_lookup_last (l1 l2 : list pattern) (q : pattern) :
  (forall r, r ∈ l2 -> hfunc r <> hfunc q) ->
  populate hfunc func (l1 ++ q :: l2) !! hfunc q = Some (func q).
Proof.
  induction l2 as [|r l2 IH] using rev_ind; intros Hlast.
  - rewrite populate_snoc. apply lookup_insert_eq.
  - rewrite app_comm_cons, app_assoc, populate_snoc.
    rewrite lookup_insert_ne by (apply Hlast; set_solver).
    apply IH. intros r' Hr'. apply Hlast. set_solver.
Qed.

(** The keys of the table are the keys of the patterns. *)
Lemma populate_lookup_is_Some (patterns : list pattern) (k : Z) :
  is_Some (populate hfunc func patterns !! k)
  <-> exists p, p ∈ patterns /\ hfunc p = k.
Proof.
  induction patterns as [|r l IH] using rev_ind.
  - unfold populate; cbn. rewrite lookup_empty. split.
    + by intros [? ?].
    + intros (p & Hp & _). inversion Hp.
  - rewrite populate_snoc. destruct (decide (hfunc r = k)) as [<- | Hne].
    + rewrite lookup_insert_eq. split; [|by eauto].
      intros _. exists r. split; [|done]. apply elem_of_app. right. left.
    + rewrite lookup_insert_ne, IH by done. split.
      * intros (p & Hp & Hk). exists p. split; [|done]. apply elem_of_app. by left.
      * intros (p & Hp & Hk). exists p. split; [|done].
        apply elem_of_app in Hp as [Hp | Hp]; [done|].
        apply list_elem_of_singleton in Hp. congruence.
Qed.

(** With a hash that is one-to-one on the patterns, every pattern finds
    its own cost. *)
Lemma populate_lookup_inj (patterns : list pattern) (p : pattern) :
  NoDup patterns ->
  (forall q r, q ∈ patterns -> r ∈ patterns -> hfunc q = hfunc r -> q = r) ->
  p ∈ patterns ->
  populate hfunc func patterns !! hfunc p = Some (func p).
Proof.
  intros Hnodup Hinj Hp.
  apply list_elem_of_split in Hp as (l1 & l2 & ->).
  apply populate_lookup_last. intros r Hr Heq.
  apply NoDup_app in Hnodup as (_ & _ & Hnodup).
  apply NoDup_cons in Hnodup as (Hnotin & _). apply Hnotin.
  replace p with r; [done|]. apply Hinj; [set_solver..|done].
Qed.

End table.

(** ** The loss function *)

Section loss.

Context {V : Type} (zero : V) (add : V -> V -> V).

(** Either a key is missing and the sum raises [KeyError], or every key
    has a value and the sum adds the values from left to right. *)
Lemma sum_lookup_cases (hash_table : gmap Z V) (hash_keys : list Z) (acc : V) :
  ((exists k, k ∈ hash_keys /\ hash_table !! k = None)
   /\ sum_lookup add hash_table hash_keys acc = Raise KeyError)
  \/ (exists vs, Forall2 (λ k v, hash_table !! k = Some v) hash_keys vs
       /\ sum_lookup add hash_table hash_keys acc = Ok (foldl add acc vs)).
Proof.
  revert acc. induction hash_keys as [|k ks IH]; intros acc; cbn.
  - right. exists []. split; [constructor|done].
  - destruct (hash_table !! k) as [v|] eqn:Hk.
    + destruct (IH (add acc v)) as [((k' & Hin & Hnone) & Hr) | (vs & Hall & Hr)].
      * left. split; [|done]. exists k'. split; [by right|done].
      * right. exists (v :: vs). split; [by constructor|done].
    + left. split; [|done]. exists k. split; [left|done].
Qed.

Lemma sum_lookup_patterns (hash_table : gmap Z V) (arrlen : Z)
    (cost : pattern -> V) (ps : list pattern) (acc : V) :
  (forall p, p ∈ ps -> hash_table !! calculate_pattern_hash p arrlen = Some (cost p)) ->
  sum_lookup add hash_table (keys_of arrlen ps) acc
  = Ok (foldl add acc (cost <$> ps)).
Proof.
  revert acc. induction ps as [|p ps IH]; intros acc Hall; cbn; [done|].
  rewrite Hall by left. apply IH. intros q Hq. apply Hall. by right.
Qed.

End loss.

(** ** Results on [translate_segmentation] and [calculate_loss_function] *)

Lemma translate_segmentation_Ok (arr store : list Z) :
  exists keys store', translate_segmentation arr store = Ok (keys, store').
Proof.
  unfold translate_segmentation.
  destruct (loop _ _ _ _) as [is_free len pos iseg li st_store]. eauto.
Qed.

(** C5: on the empty decision array, the case of a single block, the
    last-element branch computes the key as [i + 1] with [i] still zero: the
    function returns the key sequence [[1]] instead of [[0]], and the loss
    function looks up key 1, which the table of one block, whose only key
    is 0, does not have. *)
Theorem translate_segmentation_one_block :
  (forall x store, translate_segmentation [] (x :: store) = Ok ([1], 1 :: store))
  /\ (forall (V : Type) (zero : V) (add : V -> V -> V) x store
             (hash_table : gmap Z V),
        calculate_loss_function zero add [] (x :: store) hash_table
        = match hash_table !! 1 with
          | Some v => Ok (add zero v, 1 :: store)
          | None => Raise KeyError
          end)
  /\ (forall (V S : Type) (zero : V) (add : V -> V -> V) (series : S)
             (func : pattern -> S -> V) x store,
        hb_table (create_table
                    (HashBrown_init series 1 func
                       (λ p, calculate_pattern_hash p 1)))
        = Some {[0 := func (0, 1) series]}
        /\ calculate_loss_function zero add [] (x :: store)
             {[0 := func (0, 1) series]}
           = Raise KeyError).
Proof.
  split; [reflexivity|]. split.
  - intros V zero add x store hash_table. unfold calculate_loss_function.
    rewrite translate_segmentation_empty. cbn.
    by destruct (hash_table !! 1).
  - intros V S zero add series func x store. split; [reflexivity|].
    unfold calculate_loss_function.
    rewrite translate_segmentation_empty. cbn.
    by rewrite lookup_singleton_ne.
Qed.

(** C2: for two blocks or more the keys returned are the keys of valid
    patterns, each a run of merged blocks that ends at a decision other
    than 1 or at the last block, and these patterns tile the blocks
    [0 .. n_blocks - 1] from left to right: every block lies in exactly one
    pattern and the lengths add up to [n_blocks]. For a single block the
    function returns the key 1, which is the key of no valid pattern of a
    single block. *)
Theorem translate_segmentation_partition :
  ((forall x store, translate_segmentation [] (x :: store) = Ok ([1], 1 :: store))
   /\ (forall p, valid_pattern 1 p -> calculate_pattern_hash p 1 <> 1))
  /\ (forall n_blocks arr store,
        2 <= n_blocks <= max_blocks -> Z.of_nat (length arr) = n_blocks - 1 ->
        (key_count arr <= length store)%nat ->
        exists ps store',
          translate_segmentation arr store = Ok (keys_of n_blocks ps, store')
          /\ (forall p, p ∈ ps -> valid_pattern n_blocks p)
          /\ (forall p, p ∈ ps ->
                is_run arr p /\ (p.1 + p.2 < n_blocks -> closed_at arr p))
          /\ tiles 0 ps n_blocks
          /\ (forall blk, 0 <= blk < n_blocks ->
                exists k p, ps !! k = Some p /\ covers p blk /\
                  forall k' p', ps !! k' = Some p' -> covers p' blk -> k' = k)
          /\ total_length ps = n_blocks).
Proof.
  split.
  { split; [reflexivity|]. intros [pos len] (Hpos & Hlen & Hsum).
    cbn [fst snd] in *. assert (pos = 0) as -> by lia.
    assert (len = 1) as -> by lia. discriminate. }
  intros n_blocks arr store Hn Hlen Hfit.
  destruct (translate_segmentation_nonempty arr store) as (ps & Hrun & _ & Ht & Hruns);
    [by destruct arr; [cbn in Hlen; lia|]|done|].
  replace (Z.of_nat (length arr) + 1) with n_blocks in * by lia.
  exists ps, (keys_of n_blocks ps ++ drop (key_count arr) store).
  split; [done|]. split; [|split; [|split; [done|split]]].
  - intros p Hp. apply (tiles_valid _ _ _ _ Ht Hp).
  - intros p Hp. rewrite Forall_forall in Hruns. by apply Hruns.
  - intros blk Hblk. by apply (tiles_covers_once 0 n_blocks).
  - apply tiles_total_length in Ht. lia.
Qed.

Lemma translate_segmentation_partition_witness :
  exists ps store',
    translate_segmentation [1; 0; 1] [9; 9; 9; 9] = Ok (keys_of 4 ps, store')
    /\ tiles 0 ps 4.
Proof.
  destruct (proj2 translate_segmentation_partition 4 [1; 0; 1] [9; 9; 9; 9])
    as (ps & store' & Hrun & _ & _ & Ht & _);
    [unfold max_blocks; lia|reflexivity|vm_compute; lia|].
  exists ps, store'. split; assumption.
Defined.



(** C9: the loss function raises [KeyError] exactly when
    [translate_segmentation] returns keys of which one is not in the table;
    when it returns keys that are all in the table, the loss is the sum of
    the table's values at these keys, added in order; and
    [translate_segmentation] does return keys for every non-empty
    segmentation and every store with room for them. *)
Theorem calculate_loss_function_missing_key {V : Type} (zero : V)
    (add : V -> V -> V) (segmentation store : list Z) (hash_table : gmap Z V) :
  (calculate_loss_function zero add segmentation store hash_table = Raise KeyError
   <-> exists hash_keys store',
         translate_segmentation segmentation store = Ok (hash_keys, store')
         /\ exists k, k ∈ hash_keys /\ hash_table !! k = None)
  /\ (forall hash_keys store',
        translate_segmentation segmentation store = Ok (hash_keys, store') ->
        (forall k, k ∈ hash_keys -> is_Some (hash_table !! k)) ->
        exists vs,
          Forall2 (λ k v, hash_table !! k = Some v) hash_keys vs
          /\ calculate_loss_function zero add segmentation store hash_table
             = Ok (sum_costs zero add vs, store'))
  /\ (segmentation <> [] -> (key_count segmentation <= length store)%nat ->
      exists hash_keys store',
        translate_segmentation segmentation store = Ok (hash_keys, store')).
Proof.
  destruct (translate_segmentation_Ok segmentation store)
    as (keys & store' & Hrun).
  unfold calculate_loss_function. rewrite Hrun. cbn [mbind result_bind].
  split; [|split; [|by eauto]].
  - destruct (sum_lookup_cases add hash_table keys zero)
      as [((k & Hin & Hnone) & ->) | (vs & Hall & ->)]; cbn [mbind result_bind].
    + split; [|done]. intros _. exists keys, store'. split; [done|]. eauto.
    + split; [done|]. intros (? & ? & [= <- <-] & k & Hin & Hnone).
      apply list_elem_of_lookup in Hin as (j & Hj).
      destruct (Forall2_lookup_l _ _ _ _ _ Hall Hj) as (v & _ & Hv). congruence.
  - intros ? ? [= <- <-] Hsome.
    destruct (sum_lookup_cases add hash_table keys zero)
      as [((k & Hin & Hnone) & ->) | (vs & Hall & ->)]; cbn [mbind result_bind].
    + destruct (Hsome k Hin) as [v Hv]. congruence.
    + exists vs. split; done.
Qed.

Lemma calculate_loss_function_missing_key_witness :
  exists vs,
    Forall2 (λ k v, ({[4 := 10; 6 := 20]} : gmap Z Z) !! k = Some v) [4; 6] vs
    /\ calculate_loss_function 0 Z.add [1; 0; 1] [0; 0; 0; 0] {[4 := 10; 6 := 20]}
       = Ok (sum_costs 0 Z.add vs, [4; 6; 0; 0]).
Proof.
  apply (proj1 (proj2 (calculate_loss_function_missing_key 0 Z.add [1; 0; 1]
                         [0; 0; 0; 0] {[4 := 10; 6 := 20]}))
           [4; 6] [4; 6; 0; 0]).
  - reflexivity.
  - intros k Hk. apply elem_of_cons in Hk as [-> | Hk]; [by eexists|].
    apply list_elem_of_singleton in Hk as ->. by eexists.
Defined.

(** ** Results on [create_table] *)

(** C6, as stated, fails: with a hash function that sends every pattern to
    key 0, the build for two blocks returns a table, and the table holds,
    under the shared key, only the cost of the pattern generated last. *)
Lemma create_table_collision_returns_table :
  let func := λ (p : pattern) (_ : unit), 10 * p.2 + p.1 in
  let hfunc := λ _ : pattern, 0 in
  (0, 1) ∈ create_pattern_generator 2
  /\ (1, 1) ∈ create_pattern_generator 2
  /\ (0, 1) ≠ (1, 1)
  /\ hfunc (0, 1) = hfunc (1, 1)
  /\ hb_table (create_table (HashBrown_init tt 2 func hfunc))
     = Some {[0 := func (0, 2) tt]}.
Proof.
  cbn. refine (conj _ (conj _ (conj _ (conj _ _)))).
  - apply elem_of_create_pattern_generator. unfold valid_pattern; cbn. lia.
  - apply elem_of_create_pattern_generator. unfold valid_pattern; cbn. lia.
  - discriminate.
  - reflexivity.
  - reflexivity.
Qed.

(** C6, amended: [create_table] always returns a table. Its keys are the
    keys of the generated patterns, and a key holds the cost of the last
    generated pattern with that key, so of two patterns with one key the
    earlier cost is replaced. *)
Theorem create_table_last_wins {V S : Type} (self : @HashBrown V S)
    (l1 l2 : list pattern) (q : pattern) :
  create_pattern_generator (hb_n_blocks self) = l1 ++ q :: l2 ->
  (forall r, r ∈ l2 -> hb_hfunc self r <> hb_hfunc self q) ->
  exists table,
    hb_table (create_table self) = Some table
    /\ table !! hb_hfunc self q = Some (hb_func self q (hb_series self))
    /\ (forall k, is_Some (table !! k)
          <-> exists p, p ∈ create_pattern_generator (hb_n_blocks self)
                /\ hb_hfunc self p = k).
Proof.
  intros Hgen Hlast. eexists. split; [reflexivity|]. split.
  - rewrite Hgen.
    apply (populate_lookup_last (hb_hfunc self) (λ p, hb_func self p (hb_series self))).
    exact Hlast.
  - intros k. apply populate_lookup_is_Some.
Qed.

Lemma create_table_last_wins_witness :
  exists table : gmap Z Z,
    hb_table (create_table
                (HashBrown_init tt 2 (λ p _, 10 * p.2 + p.1) (λ _, 0)))
    = Some table
    /\ table !! 0 = Some 20.
Proof.
  destruct (create_table_last_wins
              (HashBrown_init tt 2 (λ p _, 10 * p.2 + p.1) (λ _, 0))
              [(0, 1); (1, 1)] [] (0, 2))
    as (table & Ht & Hq & _).
  - reflexivity.
  - intros r Hr. inversion Hr.
  - exists table. split; assumption.
Defined.

(** ** The loss of the two extreme segmentations *)

Section extremes.

Lemma closing_replicate_0 (k : nat) : closing (replicate k 0) = replicate k 0.
Proof.
  induction k as [|k IH]; [done|]. cbn [replicate].
  by rewrite closing_cons_other, IH.
Qed.

Lemma closing_replicate_1 (k : nat) : closing (replicate k 1) = [].
Proof.
  induction k as [|k IH]; [done|]. cbn [replicate].
  by rewrite closing_cons_one.
Qed.

(** A tiling with as many patterns as blocks consists of singletons. *)
Lemma tiles_singletons (a b : Z) (ps : list pattern) :
  tiles a ps b -> Z.of_nat (length ps) = b - a ->
  ps = (λ i, (i, 1)) <$> seqZ a (b - a).
Proof.
  revert a. induction ps as [|[pos len] ps IH]; intros a; cbn.
  - intros -> _. by rewrite Z.sub_diag.
  - intros (-> & Hlen & Ht) Hcount.
    pose proof (tiles_length_le _ _ _ Ht).
    assert (len = 1) as -> by lia.
    rewrite seqZ_cons by lia. cbn. f_equal.
    rewrite (IH _ Ht) by lia. do 2 f_equal; lia.
Qed.

Lemma tiles_single (b : Z) (p : pattern) : tiles 0 [p] b -> p = (0, b).
Proof. destruct p as [pos len]. cbn. intros (-> & _ & <-). f_equal. Qed.

(** The table built with [arrlen = n_blocks] gives every valid pattern its
    own cost. *)
Lemma canonical_table_lookup {V : Type} (func : pattern -> V) (n : Z)
    (p : pattern) :
  0 <= n -> valid_pattern n p ->
  populate (λ p, calculate_pattern_hash p n) func (create_pattern_generator n)
    !! calculate_pattern_hash p n = Some (func p).
Proof.
  intros Hn Hp.
  apply (populate_lookup_inj (λ p, calculate_pattern_hash p n) func).
  - apply (StronglySorted_irrefl_NoDup pattern_lt).
    + intros [a l]. unfold pattern_lt. cbn. lia.
    + apply create_pattern_generator_sorted.
  - intros q r Hq%elem_of_create_pattern_generator
      Hr%elem_of_create_pattern_generator.
    by apply calculate_pattern_hash_inj.
  - by apply elem_of_create_pattern_generator.
Qed.

End extremes.

(** C4, as stated, fails for the hash of the specification, with
    [arrlen = n_blocks - 1]: for two blocks the table has no entry for the
    key of the all-one string, and under the key of block 1 it holds the
    cost of the pattern [(0, 2)], so the all-zero string does not yield the
    sum of the two singleton costs. *)
Lemma loss_extremes_string_length_hash :
  let func := λ (p : pattern) (_ : unit), 10 * p.2 + p.1 in
  let hfunc := λ p : pattern, calculate_pattern_hash p (2 - 1) in
  exists table,
    hb_table (create_table (HashBrown_init tt 2 func hfunc)) = Some table
    /\ calculate_loss_function 0 Z.add [1] [0; 0] table = Raise KeyError
    /\ calculate_loss_function 0 Z.add [0] [0; 0] table
       = Ok (func (0, 1) tt + func (0, 2) tt, [0; 1])
    /\ func (0, 1) tt + func (0, 2) tt <> func (0, 1) tt + func (1, 1) tt.
Proof.
  cbn. eexists. refine (conj eq_refl (conj _ (conj _ _))).
  - reflexivity.
  - reflexivity.
  - discriminate.
Qed.

(** C4, amended: for two blocks or more and the table built with
    [calculate_pattern_hash] at [arrlen = n_blocks], the loss of the
    all-zero string is the sum of the singleton costs of the blocks
    [0 .. n_blocks - 1] in order, and the loss of the all-one string is the
    cost of the pattern [(0, n_blocks)]. *)
Theorem calculate_loss_function_extremes {V S : Type} (zero : V)
    (add : V -> V -> V) (series : S) (func : pattern -> S -> V)
    (n_blocks : Z) (store : list Z) :
  (forall v, add zero v = v) ->
  2 <= n_blocks -> n_blocks <= Z.of_nat (length store) ->
  exists table,
    hb_table (create_table
                (HashBrown_init series n_blocks func
                   (λ p, calculate_pattern_hash p n_blocks)))
    = Some table
    /\ (exists store',
          calculate_loss_function zero add
            (replicate (Z.to_nat (n_blocks - 1)) 0) store table
          = Ok (sum_costs zero add ((λ i, func (i, 1) series) <$> seqZ 0 n_blocks),
                store'))
    /\ (exists store',
          calculate_loss_function zero add
            (replicate (Z.to_nat (n_blocks - 1)) 1) store table
          = Ok (func (0, n_blocks) series, store')).
Proof.
  intros Hzero Hn Hstore. eexists. split; [reflexivity|].
  cbn [hb_n_blocks hb_hfunc hb_func hb_series HashBrown_init].
  set (table := populate _ _ _).
  assert (forall ps, (forall p, p ∈ ps -> valid_pattern n_blocks p) ->
            sum_lookup add table (keys_of n_blocks ps) zero
            = Ok (foldl add zero ((λ p, func p series) <$> ps))) as Hsum.
  { intros ps Hvalid. apply sum_lookup_patterns. intros p Hp.
    apply (canonical_table_lookup (λ p, func p series)); [lia|by apply Hvalid]. }
  assert (forall x : Z, length (replicate (Z.to_nat (n_blocks - 1)) x) <> 0%nat) as Hne
    by (intros x; rewrite length_replicate; lia).
  assert (forall x : Z, Z.of_nat (length (replicate (Z.to_nat (n_blocks - 1)) x)) + 1
                    = n_blocks) as Hlen
    by (intros x; rewrite length_replicate; lia).
  split.
  - destruct (translate_segmentation_nonempty
                (replicate (Z.to_nat (n_blocks - 1)) 0) store)
      as (ps & Hrun & Hcount & Ht & _).
    { intros Heq. apply (Hne 0). by rewrite Heq. }
    { unfold key_count. rewrite closing_replicate_0, length_replicate. lia. }
    rewrite Hlen in Hrun, Ht.
    unfold key_count in Hcount.
    rewrite closing_replicate_0, length_replicate in Hcount.
    apply tiles_singletons in Ht; [|lia]. rewrite Z.sub_0_r in Ht.
    eexists. unfold calculate_loss_function. rewrite Hrun. cbn [mbind result_bind].
    rewrite Hsum.
    + cbn [mbind result_bind]. unfold sum_costs. do 3 f_equal.
      rewrite Ht, <- list_fmap_compose. done.
    + intros p Hp. rewrite Ht in Hp.
      apply list_elem_of_fmap in Hp as (i & -> & Hi%elem_of_seqZ).
      unfold valid_pattern; cbn. lia.
  - destruct (translate_segmentation_nonempty
                (replicate (Z.to_nat (n_blocks - 1)) 1) store)
      as (ps & Hrun & Hcount & Ht & _).
    { intros Heq. apply (Hne 1). by rewrite Heq. }
    { unfold key_count. rewrite closing_replicate_1. cbn. lia. }
    rewrite Hlen in Hrun, Ht.
    unfold key_count in Hcount. rewrite closing_replicate_1 in Hcount.
    destruct ps as [|p [|? ?]]; try discriminate Hcount.
    apply tiles_single in Ht as ->.
    eexists. unfold calculate_loss_function. rewrite Hrun. cbn [mbind result_bind].
    rewrite Hsum.
    + cbn. by rewrite Hzero.
    + intros p ->%list_elem_of_singleton. unfold valid_pattern; cbn. lia.
Qed.

Lemma calculate_loss_function_extremes_witness :
  exists table : gmap Z Z,
    hb_table (create_table
                (HashBrown_init tt 3 (λ p _, 10 * p.2 + p.1)
                   (λ p, calculate_pattern_hash p 3)))
    = Some table
    /\ (exists store',
          calculate_loss_function 0 Z.add (replicate (Z.to_nat (3 - 1)) 1)
            [0; 0; 0] table
          = Ok (30, store')).
Proof.
  destruct (calculate_loss_function_extremes 0 Z.add tt
              (λ p _, 10 * p.2 + p.1) 3 [0; 0; 0])
    as (table & Ht & _ & Hone).
  - intros v. reflexivity.
  - lia.
  - cbn. lia.
  - exists table. split; assumption.
Defined.

(** ** The block indexer *)

Section block_indices.

Lemma cumsum_from_lookup (l : list nat) (acc i : nat) :
  (i < length l)%nat ->
  cumsum_from acc l !! i = Some (acc + sum_list (take (S i) l))%nat.
Proof.
  revert acc i. induction l as [|x l IH]; intros acc i Hi; cbn in *; [lia|].
  destruct i as [|i]; cbn.
  - rewrite take_0. cbn. f_equal. lia.
  - rewrite IH by lia. cbn. f_equal. lia.
Qed.

Lemma div_points_lookup (Ntotal Nsections i : nat) :
  (i <= Nsections)%nat ->
  cumsum (section_sizes Ntotal Nsections) !!! i
  = section_start Ntotal Nsections i.
Proof.
  intros Hi. apply list_lookup_total_correct.
  unfold cumsum, section_sizes.
  pose proof (Nat.mod_upper_bound Ntotal Nsections) as Hmod.
  set (q := (Ntotal / Nsections)%nat) in *.
  set (r := (Ntotal mod Nsections)%nat) in *.
  destruct (decide (Nsections = 0%nat)) as [-> | Hpos].
  { assert (i = 0%nat) as -> by lia. reflexivity. }
  specialize (Hmod Hpos).
  rewrite cumsum_from_lookup
    by (cbn; rewrite length_app, !length_replicate; lia).
  cbn [app take]. rewrite take_app, !take_replicate, length_replicate.
  cbn [sum_list_with id]. rewrite sum_list_with_app, !sum_list_replicate.
  f_equal. unfold section_start. fold q r.
  replace ((i - r) `min` (Nsections - r))%nat with (i - r)%nat by lia.
  nia.
Qed.

Lemma slice_arange (st end_ Ntotal : nat) :
  (st <= end_)%nat -> (end_ <= Ntotal)%nat ->
  slice st end_ (seqZ 0 (Z.of_nat Ntotal))
  = seqZ (Z.of_nat st) (Z.of_nat (end_ - st)).
Proof.
  intros Hse HeN. unfold slice, seqZ.
  rewrite !Nat2Z.id, <- fmap_drop, <- fmap_take, drop_seq, take_seq.
  cbn [Nat.add]. replace ((end_ - st) `min` (Ntotal - st))%nat
    with (end_ - st)%nat by lia.
  replace (seq st (end_ - st)) with (Nat.add st <$> seq 0 (end_ - st))
    by (rewrite fmap_add_seq; f_equal; lia).
  rewrite <- list_fmap_compose.
  apply list_fmap_ext. intros _ j _. cbn. lia.
Qed.

Lemma getitem_first (st : Z) (sz : nat) :
  (0 < sz)%nat -> getitem (seqZ st (Z.of_nat sz)) 0 = Ok st.
Proof.
  intros Hsz. unfold getitem, norm_index. rewrite length_seqZ, Nat2Z.id.
  rewrite decide_True by lia. cbn.
  rewrite lookup_seqZ_lt by lia. f_equal. lia.
Qed.

Lemma getitem_last (st : Z) (sz : nat) :
  (0 < sz)%nat ->
  getitem (seqZ st (Z.of_nat sz)) (-1) = Ok (st + Z.of_nat sz - 1).
Proof.
  intros Hsz. unfold getitem, norm_index. rewrite length_seqZ, Nat2Z.id.
  rewrite decide_False, decide_True by lia. cbn.
  rewrite lookup_seqZ_lt by lia. f_equal. lia.
Qed.

Lemma mapM_fmap_Ok {A B C : Type} (f : B -> result C) (g : A -> B)
    (h : A -> C) (l : list A) :
  (forall x, x ∈ l -> f (g x) = Ok (h x)) ->
  mapM f (g <$> l) = Ok (h <$> l).
Proof.
  induction l as [|x l IH]; intros Hall; cbn; [done|].
  rewrite Hall by left. cbn.
  rewrite IH by (intros y Hy; apply Hall; by right). done.
Qed.

Lemma section_start_step (Ntotal Nsections i : nat) :
  section_start Ntotal Nsections (S i)
  = (section_start Ntotal Nsections i + Ntotal / Nsections
     + (if decide (i < Ntotal mod Nsections)%nat then 1 else 0))%nat.
Proof. unfold section_start. case_decide; lia. Qed.

Lemma section_start_last (Ntotal Nsections : nat) :
  (0 < Nsections)%nat -> section_start Ntotal Nsections Nsections = Ntotal.
Proof.
  intros Hpos. unfold section_start.
  pose proof (Nat.mod_upper_bound Ntotal Nsections).
  pose proof (Nat.div_mod_eq Ntotal Nsections).
  replace (Nsections `min` (Ntotal mod Nsections))%nat
    with (Ntotal mod Nsections)%nat by lia.
  lia.
Qed.

Lemma section_start_mono (Ntotal Nsections i j : nat) :
  (i <= j)%nat ->
  (section_start Ntotal Nsections i <= section_start Ntotal Nsections j)%nat.
Proof. intros Hij. unfold section_start. nia. Qed.

(** The value of the function on an admissible number of blocks. *)
Lemma calculate_block_indices_value (series_length : nat) (n_blocks : Z) :
  1 <= n_blocks <= Z.of_nat series_length ->
  calculate_block_indices series_length n_blocks
  = Ok ((λ i, (Z.of_nat (section_start series_length (Z.to_nat n_blocks) i),
               Z.of_nat (section_start series_length (Z.to_nat n_blocks) (S i)) - 1))
          <$> seq 0 (Z.to_nat n_blocks)).
Proof.
  intros Hn. unfold calculate_block_indices, array_split.
  rewrite decide_False, decide_False by lia. cbn [mbind result_bind].
  rewrite length_seqZ, Nat2Z.id.
  set (n := Z.to_nat n_blocks). set (L := series_length).
  assert (0 < n <= L)%nat as Hn' by lia.
  assert (1 <= L / n)%nat as Hq
    by (apply Nat.div_le_lower_bound; lia).
  apply mapM_fmap_Ok. intros i Hi%elem_of_seq.
  replace (i + 1)%nat with (S i) by lia.
  rewrite !div_points_lookup by lia.
  pose proof (section_start_step L n i) as Hstep.
  pose proof (section_start_mono L n (S i) n ltac:(lia)) as Hmono.
  rewrite section_start_last in Hmono by lia.
  rewrite slice_arange by lia.
  rewrite getitem_first, getitem_last by (case_decide; lia).
  cbn [mbind result_bind]. do 2 f_equal. lia.
Qed.

End block_indices.

(** C7: for [1 <= n_blocks <= series_length] the function returns
    [n_blocks] pairs; the first starts at 0, the last ends at
    [series_length - 1], every pair starts right after the one before it
    ends, no block is empty, and a block is as large as any later block or
    larger by one. *)
Theorem calculate_block_indices_partition (series_length : nat) (n_blocks : Z) :
  1 <= n_blocks <= Z.of_nat series_length ->
  exists bs,
    calculate_block_indices series_length n_blocks = Ok bs
    /\ Z.of_nat (length bs) = n_blocks
    /\ (exists b, head bs = Some b /\ b.1 = 0)
    /\ (exists b, last bs = Some b /\ b.2 = Z.of_nat series_length - 1)
    /\ (forall i a b, bs !! i = Some a -> bs !! S i = Some b -> b.1 = a.2 + 1)
    /\ (forall b, b ∈ bs -> b.1 <= b.2)
    /\ (forall i j a b, (i <= j)%nat -> bs !! i = Some a -> bs !! j = Some b ->
          block_size b <= block_size a <= block_size b + 1).
Proof.
  intros Hn. eexists. split; [by apply calculate_block_indices_value|].
  set (n := Z.to_nat n_blocks). set (L := series_length).
  set (f := λ i, (Z.of_nat (section_start L n i),
                  Z.of_nat (section_start L n (S i)) - 1)).
  assert (0 < n <= L)%nat as Hn' by lia.
  assert (1 <= L / n)%nat as Hq by (apply Nat.div_le_lower_bound; lia).
  assert (forall i a, (f <$> seq 0 n) !! i = Some a -> (i < n)%nat /\ a = f i)
    as Hlook.
  { intros i a Hi. apply list_lookup_fmap_Some in Hi as (j & -> & Hj).
    apply lookup_seq in Hj as [-> ?]. done. }
  assert (forall i, (i < n)%nat -> (f <$> seq 0 n) !! i = Some (f i)) as Hget.
  { intros i Hi. by rewrite list_lookup_fmap, lookup_seq_lt. }
  split; [rewrite length_fmap, length_seq; lia|].
  split; [|split; [|split; [|split]]].
  - exists (f 0%nat). rewrite head_lookup, Hget by lia. done.
  - exists (f (pred n)).
    rewrite last_lookup, length_fmap, length_seq, Hget by lia.
    split; [done|]. cbn [f snd].
    replace (S (pred n)) with n by lia. rewrite section_start_last by lia. done.
  - intros i a b [_ ->]%Hlook [_ ->]%Hlook. cbn. lia.
  - intros b (i & -> & _)%list_elem_of_fmap. cbn [f fst snd].
    pose proof (section_start_step L n i). case_decide; lia.
  - intros i j a b Hij [_ ->]%Hlook [_ ->]%Hlook. unfold block_size. cbn [f fst snd].
    pose proof (section_start_step L n i).
    pose proof (section_start_step L n j).
    repeat case_decide; lia.
Qed.

Lemma calculate_block_indices_partition_witness :
  exists bs,
    calculate_block_indices 10 3 = Ok bs /\ Z.of_nat (length bs) = 3.
Proof.
  destruct (calculate_block_indices_partition 10 3) as (bs & Hrun & Hlen & _).
  - cbn. lia.
  - exists bs. split; assumption.
Defined.

(** C8: the function raises [IndexError] when [n_blocks] exceeds the
    series length, it raises the [ValueError] of [array_split] when
    [n_blocks] is zero or negative, and it returns a list of pairs for every
    [n_blocks] from 1 to the series length. *)
Theorem calculate_block_indices_errors (series_length : nat) (n_blocks : Z) :
  (n_blocks > Z.of_nat series_length ->
     calculate_block_indices series_length n_blocks = Raise IndexError)
  /\ (n_blocks <= 0 ->
        calculate_block_indices series_length n_blocks = Raise ValueError)
  /\ (1 <= n_blocks <= Z.of_nat series_length ->
        exists bs, calculate_block_indices series_length n_blocks = Ok bs).
Proof.
  split; [|split].
  - intros Hgt. unfold calculate_block_indices. by rewrite decide_True.
  - intros Hle. unfold calculate_block_indices, array_split.
    rewrite decide_False by lia. by rewrite decide_True.
  - intros Hn. eexists. by apply calculate_block_indices_value.
Qed.

Lemma calculate_block_indices_errors_witness :
  calculate_block_indices 3 5 = Raise IndexError
  /\ calculate_block_indices 3 0 = Raise ValueError
  /\ exists bs, calculate_block_indices 3 2 = Ok bs.
Proof.
  destruct (calculate_block_indices_errors 3 5) as (H5 & _ & _).
  destruct (calculate_block_indices_errors 3 0) as (_ & H0 & _).
  destruct (calculate_block_indices_errors 3 2) as (_ & _ & H2).
  split; [apply H5; lia|]. split; [apply H0; lia|]. apply H2. cbn. lia.
Defined.

(** * Further properties *)

(** ** A store that is too small *)



(** ** The keys of a segmentation *)

Section keys.

Lemma calculate_pattern_hash_bounds (n : Z) (p : pattern) :
  0 <= n -> valid_pattern n p ->
  0 <= calculate_pattern_hash p n < total_patterns n.
Proof.
  intros Hn Hp. pose proof (calculate_pattern_hash_range n p Hp) as Hr.
  destruct p as [pos len]. destruct Hp as (Hpos & Hlen & Hsum); cbn [fst snd] in *.
  pose proof (length_offset_nonneg n len).
  pose proof (length_offset_mono n (len + 1) (n + 1)).
  rewrite length_offset_last in *. lia.
Qed.

Lemma tiles_NoDup (a b : Z) (ps : list pattern) : tiles a ps b -> NoDup ps.
Proof.
  revert a. induction ps as [|p ps IH]; intros a; cbn; [constructor|].
  intros (Hp & Hlen & Hrest). constructor; [|by eapply IH].
  intros Hin. pose proof (tiles_valid _ _ _ _ Hrest Hin). lia.
Qed.

Lemma length_closing_merges (arr : list Z) :
  (length (closing arr) + length (merges arr) = length arr)%nat.
Proof.
  unfold closing, merges. induction arr as [|x arr IH]; [done|].
  destruct (decide (x = 1)) as [-> | Hx].
  - rewrite filter_cons_False by (intros H; by apply H).
    rewrite filter_cons_True by done. cbn. lia.
  - rewrite filter_cons_True by done.
    rewrite filter_cons_False by done. cbn. lia.
Qed.

End keys.

(** X2: the keys returned for [n_blocks >= 2] blocks are pairwise distinct,
    each lies in [0 .. n_blocks*(n_blocks+1)/2 - 1], and their number is
    [n_blocks] less the number of merge decisions, so between 1 and
    [n_blocks]; this for up to [max_blocks] blocks. *)
Theorem translate_segmentation_keys (n_blocks : Z) (arr store : list Z) :
  2 <= n_blocks <= max_blocks -> Z.of_nat (length arr) = n_blocks - 1 ->
  (key_count arr <= length store)%nat ->
  exists keys store',
    translate_segmentation arr store = Ok (keys, store')
    /\ NoDup keys
    /\ (forall k, k ∈ keys -> 0 <= k < n_blocks * (n_blocks + 1) / 2)
    /\ Z.of_nat (length keys) = n_blocks - Z.of_nat (length (merges arr))
    /\ 1 <= Z.of_nat (length keys) <= n_blocks.
Proof.
  intros Hn Hlen Hfit.
  destruct (translate_segmentation_nonempty arr store) as (ps & Hrun & Hcount & Ht & _);
    [by destruct arr; [cbn in Hlen; lia|]|done|].
  replace (Z.of_nat (length arr) + 1) with n_blocks in * by lia.
  pose proof (length_closing_merges arr) as Hsplit.
  assert (length (keys_of n_blocks ps) = key_count arr) as Hk
    by (by rewrite length_keys_of).
  exists (keys_of n_blocks ps), (keys_of n_blocks ps ++ drop (key_count arr) store).
  split; [done|]. split; [|split; [|split]].
  - apply NoDup_fmap_2_strong; [|by eapply tiles_NoDup].
    intros p q Hp Hq. apply calculate_pattern_hash_inj.
    + apply (tiles_valid _ _ _ _ Ht Hp).
    + apply (tiles_valid _ _ _ _ Ht Hq).
  - intros k (p & -> & Hp)%list_elem_of_fmap. fold (total_patterns n_blocks).
    apply calculate_pattern_hash_bounds; [lia|].
    apply (tiles_valid _ _ _ _ Ht Hp).
  - rewrite Hk. unfold key_count. lia.
  - rewrite Hk. unfold key_count. lia.
Qed.

Lemma translate_segmentation_keys_witness :
  exists keys store',
    translate_segmentation [1; 0; 1; 1] [0; 0; 0] = Ok (keys, store')
    /\ NoDup keys.
Proof.
  destruct (translate_segmentation_keys 5 [1; 0; 1; 1] [0; 0; 0])
    as (keys & store' & Hrun & Hnd & _);
    [unfold max_blocks; lia|reflexivity|vm_compute; lia|].
  exists keys, store'. split; assumption.
Defined.

(** ** The order of the keys *)

(** X3: for up to [max_blocks] blocks and with [arrlen = n_blocks] the
    pattern generated at position [k] has key [k]: the generator lists the
    patterns by increasing key, starting from 0 with no key left out. *)
Theorem create_pattern_generator_keys (n_blocks : Z) (k : nat) (p : pattern) :
  0 <= n_blocks <= max_blocks ->
  create_pattern_generator n_blocks !! k = Some p ->
  calculate_pattern_hash p n_blocks = Z.of_nat k.
Proof.
  intros Hn Hk.
  assert (((λ p, calculate_pattern_hash p n_blocks)
             <$> create_pattern_generator n_blocks) !! k
          = Some (calculate_pattern_hash p n_blocks)) as Hkey
    by (by rewrite list_lookup_fmap, Hk).
  rewrite hash_create_pattern_generator in Hkey by lia.
  apply lookup_seqZ in Hkey as [-> _]. lia.
Qed.

Lemma create_pattern_generator_keys_witness :
  calculate_pattern_hash (1, 2) 3 = Z.of_nat 4.
Proof.
  apply (create_pattern_generator_keys 3 4 (1, 2));
    [unfold max_blocks; lia|reflexivity].
Defined.

(** X4: for up to [max_blocks] blocks and with [arrlen = n_blocks] the
    keys of valid patterns are ordered as the patterns are: by length first
    and by position second. *)
Theorem calculate_pattern_hash_monotone (n_blocks : Z) (p q : pattern) :
  n_blocks <= max_blocks ->
  valid_pattern n_blocks p -> valid_pattern n_blocks q ->
  (pattern_lt p q
   <-> calculate_pattern_hash p n_blocks < calculate_pattern_hash q n_blocks).
Proof.
  intros _ Hp Hq.
  pose proof (calculate_pattern_hash_range n_blocks p Hp) as Rp.
  pose proof (calculate_pattern_hash_range n_blocks q Hq) as Rq.
  destruct p as [a l1], q as [b l2].
  destruct Hp as (Ha & Hl1 & Hs1), Hq as (Hb & Hl2 & Hs2).
  unfold pattern_lt. cbn [fst snd] in *.
  destruct (Z.lt_trichotomy l1 l2) as [Hlt | [-> | Hgt]].
  - pose proof (length_offset_mono n_blocks (l1 + 1) l2). split; [lia|]. auto.
  - rewrite !calculate_pattern_hash_offset. lia.
  - pose proof (length_offset_mono n_blocks (l2 + 1) l1). lia.
Qed.

Lemma calculate_pattern_hash_monotone_witness :
  pattern_lt (2, 1) (0, 2)
  <-> calculate_pattern_hash (2, 1) 3 < calculate_pattern_hash (0, 2) 3.
Proof.
  apply (calculate_pattern_hash_monotone 3 (2, 1) (0, 2));
    unfold valid_pattern, max_blocks; cbn; lia.
Defined.

(** ** The table of the canonical hash *)

Section canonical_table.

Context {V : Type} (func : pattern -> V).

Lemma canonical_table_is_Some (n : Z) (k : Z) :
  0 <= n ->
  is_Some (populate (λ p, calculate_pattern_hash p n) func
             (create_pattern_generator n) !! k)
  <-> 0 <= k < total_patterns n.
Proof.
  intros Hn. rewrite populate_lookup_is_Some. split.
  - intros (p & Hp%elem_of_create_pattern_generator & <-).
    by apply calculate_pattern_hash_bounds.
  - intros Hk.
    assert (k ∈ (λ p, calculate_pattern_hash p n) <$> create_pattern_generator n)
      as Hin by (rewrite hash_create_pattern_generator by done;
                 apply elem_of_seqZ; lia).
    apply list_elem_of_fmap in Hin as (p & -> & Hp). eauto.
Qed.

Lemma canonical_table_size (n : Z) :
  0 <= n ->
  Z.of_nat (size (populate (λ p, calculate_pattern_hash p n) func
                    (create_pattern_generator n)))
  = total_patterns n.
Proof.
  intros Hn. set (table := populate _ _ _).
  assert (dom table = list_to_set (seqZ 0 (total_patterns n))) as Hdom.
  { apply set_eq. intros k.
    rewrite elem_of_dom, elem_of_list_to_set, elem_of_seqZ.
    unfold table. rewrite canonical_table_is_Some by done. lia. }
  rewrite <- size_dom, Hdom, size_list_to_set by apply NoDup_seqZ.
  rewrite length_seqZ, Z2Nat.id; [done|].
  pose proof (total_patterns_double n). nia.
Qed.

End canonical_table.

(** X5: for [n_blocks >= 0] the table built with [calculate_pattern_hash]
    at [arrlen = n_blocks] has exactly the keys
    [0 .. n_blocks*(n_blocks+1)/2 - 1], one entry per key, and under the key
    of every valid pattern it holds the cost of that pattern. *)
Theorem create_table_canonical {V S : Type} (series : S)
    (func : pattern -> S -> V) (n_blocks : Z) :
  0 <= n_blocks ->
  exists table,
    hb_table (create_table
                (HashBrown_init series n_blocks func
                   (λ p, calculate_pattern_hash p n_blocks)))
    = Some table
    /\ (forall k, is_Some (table !! k) <-> 0 <= k < n_blocks * (n_blocks + 1) / 2)
    /\ Z.of_nat (size table) = n_blocks * (n_blocks + 1) / 2
    /\ (forall p, valid_pattern n_blocks p ->
          table !! calculate_pattern_hash p n_blocks = Some (func p series)).
Proof.
  intros Hn. eexists. split; [reflexivity|].
  cbn [hb_n_blocks hb_hfunc hb_func hb_series HashBrown_init].
  fold (total_patterns n_blocks). split; [|split].
  - intros k. by apply canonical_table_is_Some.
  - by apply canonical_table_size.
  - intros p Hp. by apply (canonical_table_lookup (λ p, func p series)).
Qed.

Lemma create_table_canonical_witness :
  exists table : gmap Z Z,
    hb_table (create_table
                (HashBrown_init tt 3 (λ p _, 10 * p.2 + p.1)
                   (λ p, calculate_pattern_hash p 3)))
    = Some table
    /\ Z.of_nat (size table) = 3 * (3 + 1) / 2.
Proof.
  destruct (create_table_canonical tt (λ p (_ : unit), 10 * p.2 + p.1) 3)
    as (table & Ht & _ & Hsize & _); [lia|].
  exists table. split; assumption.
Defined.

(** X6: for a table built at [arrlen = n_blocks] with [n_blocks >= 2], a
    decision array of length [n_blocks - 1] and a store with room for the
    keys, the loss function finds every key: it returns the sum of the
    costs of the patterns that tile the blocks, taken from left to right. *)
Theorem calculate_loss_function_decomposition {V S : Type} (zero : V)
    (add : V -> V -> V) (series : S) (func : pattern -> S -> V)
    (n_blocks : Z) (arr store : list Z) :
  2 <= n_blocks -> Z.of_nat (length arr) = n_blocks - 1 ->
  (key_count arr <= length store)%nat ->
  exists table ps store',
    hb_table (create_table
                (HashBrown_init series n_blocks func
                   (λ p, calculate_pattern_hash p n_blocks)))
    = Some table
    /\ translate_segmentation arr store = Ok (keys_of n_blocks ps, store')
    /\ tiles 0 ps n_blocks
    /\ calculate_loss_function zero add arr store table
       = Ok (sum_costs zero add ((λ p, func p series) <$> ps), store').
Proof.
  intros Hn Hlen Hfit.
  destruct (translate_segmentation_nonempty arr store) as (ps & Hrun & _ & Ht & _);
    [by destruct arr; [cbn in Hlen; lia|]|done|].
  replace (Z.of_nat (length arr) + 1) with n_blocks in * by lia.
  eexists _, ps, _. split; [reflexivity|]. split; [exact Hrun|]. split; [done|].
  cbn [hb_n_blocks hb_hfunc hb_func hb_series HashBrown_init].
  unfold calculate_loss_function. rewrite Hrun. cbn [mbind result_bind].
  rewrite (sum_lookup_patterns add _ n_blocks (λ p, func p series)); [done|].
  intros p Hp. apply (canonical_table_lookup (λ p, func p series)); [lia|].
  apply (tiles_valid _ _ _ _ Ht Hp).
Qed.

Lemma calculate_loss_function_decomposition_witness :
  exists (table : gmap Z Z) ps store',
    hb_table (create_table
                (HashBrown_init tt 4 (λ p _, 10 * p.2 + p.1)
                   (λ p, calculate_pattern_hash p 4)))
    = Some table
    /\ translate_segmentation [1; 0; 1] [0; 0] = Ok (keys_of 4 ps, store')
    /\ tiles 0 ps 4
    /\ calculate_loss_function 0 Z.add [1; 0; 1] [0; 0] table
       = Ok (sum_costs 0 Z.add ((λ p, 10 * p.2 + p.1) <$> ps), store').
Proof.
  apply (calculate_loss_function_decomposition 0 Z.add tt
           (λ p (_ : unit), 10 * p.2 + p.1) 4 [1; 0; 1] [0; 0]).
  - lia.
  - reflexivity.
  - vm_compute. lia.
Defined.

(** X7: for [n_blocks <= 0] the generator yields no pattern and
    [create_table] builds the empty table, whatever the hash function. *)
Theorem create_table_no_blocks {V S : Type} (series : S)
    (func : pattern -> S -> V) (hfunc : pattern -> Z) (n_blocks : Z) :
  n_blocks <= 0 ->
  create_pattern_generator n_blocks = []
  /\ hb_table (create_table (HashBrown_init series n_blocks func hfunc))
     = Some ∅.
Proof.
  intros Hn.
  assert (create_pattern_generator n_blocks = []) as Hgen
    by (unfold create_pattern_generator, range; by rewrite seqZ_nil).
  split; [done|]. unfold create_table.
  cbn [hb_n_blocks hb_hfunc hb_func hb_series hb_table HashBrown_init].
  by rewrite Hgen.
Qed.

Lemma create_table_no_blocks_witness :
  create_pattern_generator 0 = []
  /\ hb_table (create_table
                 (HashBrown_init tt 0 (λ p (_ : unit), p.1) (λ p, p.2)))
     = Some ∅.
Proof.
  apply (create_table_no_blocks tt (λ p (_ : unit), p.1) (λ p, p.2) 0). lia.
Defined.

(** ** Reading the decisions back from the keys *)

Section decode.

Lemma keys_of_inj (n : Z) (ps qs : list pattern) :
  Forall (valid_pattern n) ps -> Forall (valid_pattern n) qs ->
  keys_of n ps = keys_of n qs -> ps = qs.
Proof.
  intros Hps. revert qs. induction Hps as [|p ps Hp Hps IH];
    intros qs Hqs Heq; destruct Hqs as [|q qs Hq Hqs]; try discriminate Heq.
  - done.
  - cbn in Heq. injection Heq as Hhead Htail. f_equal.
    + by apply (calculate_pattern_hash_inj n).
    + by apply IH.
Qed.

Lemma tiles_Forall_valid (n : Z) (ps : list pattern) :
  tiles 0 ps n -> Forall (valid_pattern n) ps.
Proof.
  intros Ht. apply Forall_forall. intros p Hp.
  apply (tiles_valid _ _ _ _ Ht Hp).
Qed.

(** Two binary arrays with the same runs are the same array. *)
Lemma same_patterns_same_decisions (n : Z) (ps : list pattern)
    (arr1 arr2 : list Z) :
  Z.of_nat (length arr1) + 1 = n -> Z.of_nat (length arr2) + 1 = n ->
  tiles 0 ps n ->
  Forall (λ p, is_run arr1 p /\ (p.1 + p.2 < n -> closed_at arr1 p)) ps ->
  Forall (λ p, is_run arr2 p /\ (p.1 + p.2 < n -> closed_at arr2 p)) ps ->
  binary arr1 -> binary arr2 -> arr1 = arr2.
Proof.
  intros Hn1 Hn2 Ht Hr1 Hr2 Hb1 Hb2. apply list_eq. intros j.
  destruct (decide (j < length arr1)%nat) as [Hj | Hj];
    [|by rewrite !lookup_ge_None_2 by lia].
  destruct (tiles_covers_once 0 n ps (Z.of_nat j) Ht) as (k & p & Hk & Hc & _);
    [lia|].
  apply list_elem_of_lookup_2 in Hk.
  rewrite Forall_forall in Hr1, Hr2.
  destruct (Hr1 p Hk) as [Hrun1 Hclosed1], (Hr2 p Hk) as [Hrun2 Hclosed2].
  unfold covers in Hc.
  destruct (decide (Z.of_nat j < p.1 + p.2 - 1)) as [Hin | Hend].
  - specialize (Hrun1 (Z.of_nat j)). specialize (Hrun2 (Z.of_nat j)).
    rewrite Nat2Z.id in Hrun1, Hrun2. rewrite Hrun1, Hrun2 by lia. done.
  - assert (p.1 + p.2 - 1 = Z.of_nat j) as Hlast by lia.
    destruct Hclosed1 as (x1 & Hx1 & Hne1); [lia|].
    destruct Hclosed2 as (x2 & Hx2 & Hne2); [lia|].
    rewrite Hlast, Nat2Z.id in Hx1, Hx2.
    unfold binary in Hb1, Hb2. rewrite Forall_lookup in Hb1, Hb2.
    destruct (Hb1 j x1 Hx1), (Hb2 j x2 Hx2); congruence.
Qed.

End decode.

(** X8: two binary decision arrays of the same length, of up to
    [max_blocks - 1] elements, for which the function returns the same keys
    on stores with room for the keys are the same array: the keys tell the
    segmentation. *)
Theorem translate_segmentation_injective (arr1 arr2 store1 store2 : list Z)
    (keys store1' store2' : list Z) :
  length arr1 = length arr2 -> Z.of_nat (length arr1) + 1 <= max_blocks ->
  binary arr1 -> binary arr2 ->
  (key_count arr1 <= length store1)%nat ->
  (key_count arr2 <= length store2)%nat ->
  translate_segmentation arr1 store1 = Ok (keys, store1') ->
  translate_segmentation arr2 store2 = Ok (keys, store2') ->
  arr1 = arr2.
Proof.
  intros Hlen _ Hb1 Hb2 Hfit1 Hfit2 Hrun1 Hrun2.
  destruct (decide (arr1 = [])) as [-> | Hne1].
  { by destruct arr2. }
  assert (arr2 <> []) as Hne2 by (intros ->; by destruct arr1).
  destruct (translate_segmentation_nonempty arr1 store1 Hne1 Hfit1)
    as (ps1 & Hps1 & _ & Ht1 & Hr1).
  destruct (translate_segmentation_nonempty arr2 store2 Hne2 Hfit2)
    as (ps2 & Hps2 & _ & Ht2 & Hr2).
  rewrite <- Hlen in Hps2, Ht2, Hr2.
  set (n := Z.of_nat (length arr1) + 1) in *.
  assert (ps1 = ps2) as <-.
  { apply (keys_of_inj n); [by apply tiles_Forall_valid..|]. congruence. }
  apply (same_patterns_same_decisions n ps1); try done. lia.
Qed.

Lemma translate_segmentation_injective_witness :
  [1; 0; 1] = [1; 0; 1].
Proof.
  apply (translate_segmentation_injective [1; 0; 1] [1; 0; 1]
           [0; 0] [5; 5; 5] [4; 6] [4; 6] [4; 6; 5]).
  - reflexivity.
  - unfold max_blocks. cbn. lia.
  - unfold binary. repeat (constructor; [lia|]). constructor.
  - unfold binary. repeat (constructor; [lia|]). constructor.
  - vm_compute. lia.
  - vm_compute. lia.
  - reflexivity.
  - reflexivity.
Defined.

(** ** Elements other than 0 and 1 *)

Section binarize.

Lemma loop_body_binarize (arrlen : Z) (st : locals) (i x : Z) :
  loop_body arrlen st i (if decide (x = 1) then 1 else 0)
  = loop_body arrlen st i x.
Proof.
  destruct st as [is_free len pos iseg li store]. unfold loop_body.
  destruct (decide (x = 1)) as [-> | Hx]; [done|].
  by rewrite decide_False by done.
Qed.

Lemma loop_binarize (arrlen : Z) (arr : list Z) (st : locals) (i : Z) :
  loop arrlen st i (binarize arr) = loop arrlen st i arr.
Proof.
  revert st i. induction arr as [|x arr IH]; intros st i; [done|].
  cbn [binarize fmap list_fmap loop]. rewrite loop_body_binarize. apply IH.
Qed.

End binarize.

(** X9: an element other than 1 acts as a 0: the function gives the same
    result on an array and on the array with every such element replaced
    by 0. *)
Theorem translate_segmentation_binarize (arr store : list Z) :
  translate_segmentation (binarize arr) store = translate_segmentation arr store.
Proof.
  unfold translate_segmentation.
  replace (length (binarize arr)) with (length arr)
    by (unfold binarize; by rewrite length_fmap).
  by rewrite loop_binarize.
Qed.

(** ** The two extreme segmentations *)

Section extreme_keys.

Lemma keys_of_singletons (n : Z) (l : list Z) :
  keys_of n ((λ i, (i, 1)) <$> l) = l.
Proof.
  unfold keys_of. rewrite <- list_fmap_compose.
  induction l as [|i l IH]; [done|]. cbn. by rewrite IH.
Qed.

Lemma calculate_pattern_hash_full (n : Z) :
  calculate_pattern_hash (0, n) n = total_patterns n - 1.
Proof.
  pose proof (length_offset_succ n n) as Hs.
  rewrite length_offset_last in Hs. unfold length_offset in Hs. lia.
Qed.

Lemma translate_segmentation_all_zero (n : Z) (store : list Z) :
  2 <= n -> n <= Z.of_nat (length store) ->
  translate_segmentation (replicate (Z.to_nat (n - 1)) 0) store
  = Ok (seqZ 0 n, seqZ 0 n ++ drop (Z.to_nat n) store).
Proof.
  intros Hn Hstore. set (arr := replicate (Z.to_nat (n - 1)) 0).
  assert (length arr = Z.to_nat (n - 1)) as Hlen by apply length_replicate.
  assert (key_count arr = Z.to_nat n) as Hcount.
  { unfold key_count, arr. rewrite closing_replicate_0, length_replicate. lia. }
  destruct (translate_segmentation_nonempty arr store)
    as (ps & Hrun & Hps & Ht & _).
  { intros Heq. rewrite Heq in Hlen. cbn in Hlen. lia. }
  { lia. }
  rewrite Hlen in Hrun, Ht.
  replace (Z.of_nat (Z.to_nat (n - 1)) + 1) with n in * by lia.
  apply tiles_singletons in Ht; [|lia]. rewrite Z.sub_0_r in Ht.
  by rewrite Hrun, Hcount, Ht, keys_of_singletons.
Qed.

Lemma translate_segmentation_all_one (n : Z) (store : list Z) :
  2 <= n -> (1 <= length store)%nat ->
  translate_segmentation (replicate (Z.to_nat (n - 1)) 1) store
  = Ok ([total_patterns n - 1], (total_patterns n - 1) :: drop 1 store).
Proof.
  intros Hn Hstore. set (arr := replicate (Z.to_nat (n - 1)) 1).
  assert (length arr = Z.to_nat (n - 1)) as Hlen by apply length_replicate.
  assert (key_count arr = 1%nat) as Hcount.
  { unfold key_count, arr. by rewrite closing_replicate_1. }
  destruct (translate_segmentation_nonempty arr store)
    as (ps & Hrun & Hps & Ht & _).
  { intros Heq. rewrite Heq in Hlen. cbn in Hlen. lia. }
  { lia. }
  rewrite Hlen in Hrun, Ht.
  replace (Z.of_nat (Z.to_nat (n - 1)) + 1) with n in * by lia.
  rewrite Hcount in Hps, Hrun.
  destruct ps as [|p [|? ?]]; try discriminate Hps.
  apply tiles_single in Ht as ->.
  rewrite Hrun. unfold keys_of. cbn [fmap list_fmap app].
  by rewrite calculate_pattern_hash_full.
Qed.

End extreme_keys.

(** X10: for [2 <= n_blocks <= max_blocks] the all-zero decision array
    gives the keys [0 .. n_blocks - 1], written over the first [n_blocks]
    elements of the store, and the all-one decision array gives the single
    key [n_blocks*(n_blocks+1)/2 - 1], the largest key of the table, written
    over the first element of the store. *)
Theorem translate_segmentation_extremes (n_blocks : Z) (store : list Z) :
  2 <= n_blocks <= max_blocks ->
  (n_blocks <= Z.of_nat (length store) ->
     translate_segmentation (replicate (Z.to_nat (n_blocks - 1)) 0) store
     = Ok (seqZ 0 n_blocks, seqZ 0 n_blocks ++ drop (Z.to_nat n_blocks) store))
  /\ ((1 <= length store)%nat ->
        translate_segmentation (replicate (Z.to_nat (n_blocks - 1)) 1) store
        = Ok ([n_blocks * (n_blocks + 1) / 2 - 1],
              (n_blocks * (n_blocks + 1) / 2 - 1) :: drop 1 store)).
Proof.
  intros [Hn _]. split.
  - by apply translate_segmentation_all_zero.
  - by apply translate_segmentation_all_one.
Qed.

Lemma translate_segmentation_extremes_witness :
  translate_segmentation (replicate (Z.to_nat (4 - 1)) 1) [0; 7]
  = Ok ([4 * (4 + 1) / 2 - 1], (4 * (4 + 1) / 2 - 1) :: drop 1 [0; 7]).
Proof.
  apply (translate_segmentation_extremes 4 [0; 7]).
  - unfold max_blocks. lia.
  - cbn. lia.
Defined.

(** ** The hash of the docstring *)

Section docstring_hash.

(** With [arrlen = n_blocks - 1] no valid pattern gets a key above
    [n_blocks*(n_blocks-1)/2]. *)
Lemma calculate_pattern_hash_string_length_le (n : Z) (p : pattern) :
  valid_pattern n p ->
  calculate_pattern_hash p (n - 1) <= total_patterns n - n.
Proof.
  destruct p as [pos len]. intros (Hpos & Hlen & Hsum); cbn [fst snd] in *.
  pose proof (calculate_pattern_hash_double pos len (n - 1)) as Hk.
  pose proof (total_patterns_double n) as HT.
  unfold hash_numerator in Hk.
  assert (0 <= (n - len) * (n - len - 1)) as Hsq.
  { destruct (decide (n - len = 0)) as [-> | Hd]; [lia|].
    apply Z.mul_nonneg_nonneg; lia. }
  nia.
Qed.

End docstring_hash.

(** X11: with the value [arrlen = n_blocks - 1] that the docstring of
    [calculate_pattern_hash] names, the last singleton and the first pair
    get the same key, and for [2 <= n_blocks <= max_blocks] the table built
    with that hash has no entry for the key of the all-one decision array,
    on which the loss function raises [KeyError]. *)
Theorem calculate_loss_function_string_length_hash {V S : Type} (zero : V)
    (add : V -> V -> V) (series : S) (func : pattern -> S -> V)
    (n_blocks : Z) (store : list Z) :
  2 <= n_blocks <= max_blocks -> (1 <= length store)%nat ->
  calculate_pattern_hash (n_blocks - 1, 1) (n_blocks - 1)
    = calculate_pattern_hash (0, 2) (n_blocks - 1)
  /\ exists table,
       hb_table (create_table
                   (HashBrown_init series n_blocks func
                      (λ p, calculate_pattern_hash p (n_blocks - 1))))
       = Some table
       /\ calculate_loss_function zero add
            (replicate (Z.to_nat (n_blocks - 1)) 1) store table
          = Raise KeyError.
Proof.
  intros [Hn _] Hstore. split.
  - pose proof (calculate_pattern_hash_double 0 2 (n_blocks - 1)) as H2.
    unfold hash_numerator in H2. rewrite calculate_pattern_hash_singleton. lia.
  - eexists. split; [reflexivity|].
    cbn [hb_n_blocks hb_hfunc hb_func hb_series HashBrown_init].
    unfold calculate_loss_function.
    rewrite translate_segmentation_all_one by done.
    cbn [mbind result_bind sum_lookup].
    destruct (populate _ _ _ !! _) as [v|] eqn:Hlook; [|done].
    assert (is_Some (populate (λ p, calculate_pattern_hash p (n_blocks - 1))
                       (λ p, func p series) (create_pattern_generator n_blocks)
                     !! (total_patterns n_blocks - 1))) as Hsome by eauto.
    apply populate_lookup_is_Some in Hsome
      as (p & Hp%elem_of_create_pattern_generator & Hkey).
    pose proof (calculate_pattern_hash_string_length_le n_blocks p Hp). lia.
Qed.

Lemma calculate_loss_function_string_length_hash_witness :
  exists table : gmap Z Z,
    hb_table (create_table
                (HashBrown_init tt 3 (λ p _, 10 * p.2 + p.1)
                   (λ p, calculate_pattern_hash p (3 - 1))))
    = Some table
    /\ calculate_loss_function 0 Z.add (replicate (Z.to_nat (3 - 1)) 1) [0] table
       = Raise KeyError.
Proof.
  apply (calculate_loss_function_string_length_hash 0 Z.add tt
           (λ p (_ : unit), 10 * p.2 + p.1) 3 [0]).
  - unfold max_blocks. lia.
  - cbn. lia.
Defined.

(** ** The loss on a store that is too small *)



(** ** The blocks in closed form *)

Section closed_form.

Lemma section_start_Z (Ntotal Nsections i : nat) :
  Z.of_nat (section_start Ntotal Nsections i)
  = Z.of_nat i * (Z.of_nat Ntotal / Z.of_nat Nsections)
    + Z.min (Z.of_nat i) (Z.of_nat Ntotal mod Z.of_nat Nsections).
Proof.
  unfold section_start.
  by rewrite Nat2Z.inj_add, Nat2Z.inj_mul, Nat2Z.inj_min, Nat2Z.inj_div,
    Nat2Z.inj_mod.
Qed.

End closed_form.

(** X13: for [1 <= n_blocks <= series_length], with [q] the quotient and
    [r] the remainder of [series_length] by [n_blocks], block [i] runs from
    index [i*q + min i r] to index [(i+1)*q + min (i+1) r - 1]. *)
Theorem calculate_block_indices_closed_form (series_length : nat) (n_blocks : Z) :
  1 <= n_blocks <= Z.of_nat series_length ->
  exists bs,
    calculate_block_indices series_length n_blocks = Ok bs
    /\ forall i, 0 <= i < n_blocks ->
         bs !! Z.to_nat i
         = Some (i * (Z.of_nat series_length / n_blocks)
                   + Z.min i (Z.of_nat series_length mod n_blocks),
                 (i + 1) * (Z.of_nat series_length / n_blocks)
                   + Z.min (i + 1) (Z.of_nat series_length mod n_blocks) - 1).
Proof.
  intros Hn. eexists. split; [by apply calculate_block_indices_value|].
  intros i Hi. rewrite list_lookup_fmap, lookup_seq_lt by lia.
  cbv [fmap option_fmap option_map]. cbn [Nat.add].
  rewrite !section_start_Z, Nat2Z.inj_succ, !Z2Nat.id by lia.
  do 3 f_equal; lia.
Qed.

Lemma calculate_block_indices_closed_form_witness :
  exists bs,
    calculate_block_indices 10 3 = Ok bs
    /\ bs !! Z.to_nat 1 = Some (1 * (10 / 3) + Z.min 1 (10 mod 3),
                                (1 + 1) * (10 / 3) + Z.min (1 + 1) (10 mod 3) - 1).
Proof.
  destruct (calculate_block_indices_closed_form 10 3) as (bs & Hrun & Hbs).
  - cbn. lia.
  - exists bs. split; [assumption|]. apply (Hbs 1). lia.
Defined.

(** X14: with one block the function returns the whole index range
    [(0, series_length - 1)], and with as many blocks as series elements
    it returns the blocks [(i, i)] of one element each. *)
Theorem calculate_block_indices_edges (series_length : nat) :
  (1 <= series_length)%nat ->
  calculate_block_indices series_length 1
    = Ok [(0, Z.of_nat series_length - 1)]
  /\ calculate_block_indices series_length (Z.of_nat series_length)
     = Ok ((λ i, (i, i)) <$> seqZ 0 (Z.of_nat series_length)).
Proof.
  intros HL. split.
  - rewrite calculate_block_indices_value by lia.
    change (Z.to_nat 1) with 1%nat. cbn [seq fmap list_fmap].
    rewrite !section_start_Z. change (Z.of_nat 1) with 1.
    rewrite Z.div_1_r, Z.mod_1_r. do 3 f_equal; lia.
  - rewrite calculate_block_indices_value by lia. f_equal.
    rewrite Nat2Z.id. unfold seqZ. rewrite Nat2Z.id, <- list_fmap_compose.
    apply list_fmap_ext. intros _ i _. cbv [compose].
    rewrite !section_start_Z, Z.div_same, Z.mod_same by lia. f_equal; lia.
Qed.

Lemma calculate_block_indices_edges_witness :
  calculate_block_indices 4 1 = Ok [(0, Z.of_nat 4 - 1)].
Proof.
  apply (calculate_block_indices_edges 4). lia.
Defined.

(** ** The size of a table *)

Section table_size.

Context {V : Type} (hfunc : pattern -> Z) (func : pattern -> V).

Lemma size_populate_app_le (l m : list pattern) :
  (size (populate hfunc func (l ++ m))
   <= size (populate hfunc func l) + length m)%nat.
Proof.
  induction m as [|p m IH] using rev_ind.
  - rewrite app_nil_r. cbn. lia.
  - rewrite app_assoc, populate_snoc, map_size_insert, length_app. cbn.
    destruct (populate hfunc func (l ++ m) !! hfunc p); cbn; lia.
Qed.

Lemma size_populate_le (l : list pattern) :
  (size (populate hfunc func l) <= length l)%nat.
Proof.
  pose proof (size_populate_app_le [] l) as Hle. cbn in Hle.
  by rewrite map_size_empty in Hle.
Qed.

Lemma size_populate_NoDup (l : list pattern) :
  NoDup (hfunc <$> l) -> size (populate hfunc func l) = length l.
Proof.
  induction l as [|p l IH] using rev_ind; intros Hnd.
  - unfold populate. cbn. apply map_size_empty.
  - rewrite fmap_app in Hnd. apply NoDup_app in Hnd as (Hl & Hnew & _).
    assert (populate hfunc func l !! hfunc p = None) as Hnone.
    { apply eq_None_not_Some. intros (q & Hq & Hkey)%populate_lookup_is_Some.
      apply (Hnew (hfunc p)); [|left].
      apply list_elem_of_fmap. eauto. }
    rewrite populate_snoc, map_size_insert_None, IH, length_app by done.
    cbn. lia.
Qed.

(** A key that is used twice costs an entry. *)
Lemma size_populate_collision (l1 l2 l3 : list pattern) (p q : pattern) :
  hfunc p = hfunc q ->
  (size (populate hfunc func (l1 ++ p :: l2 ++ q :: l3))
   < length (l1 ++ p :: l2 ++ q :: l3))%nat.
Proof.
  intros Hkey.
  replace (l1 ++ p :: l2 ++ q :: l3) with (((l1 ++ p :: l2) ++ [q]) ++ l3)
    by (by rewrite <- !app_assoc).
  pose proof (size_populate_app_le ((l1 ++ p :: l2) ++ [q]) l3) as Hrest.
  pose proof (size_populate_le (l1 ++ p :: l2)) as Hfront.
  rewrite populate_snoc, map_size_insert_Some in Hrest.
  - rewrite !length_app in *. cbn [length] in *. lia.
  - apply populate_lookup_is_Some. exists p. split; [|done].
    apply elem_of_app. right. left.
Qed.

End table_size.

(** X15: the table that [create_table] builds for [n_blocks >= 0] has
    [n_blocks*(n_blocks+1)/2] entries exactly when the hash function gives
    distinct keys to distinct generated patterns; with a collision it has
    fewer. *)
Theorem create_table_size {V S : Type} (self : @HashBrown V S) :
  0 <= hb_n_blocks self ->
  exists table,
    hb_table (create_table self) = Some table
    /\ Z.of_nat (size table) <= hb_n_blocks self * (hb_n_blocks self + 1) / 2
    /\ (Z.of_nat (size table) = hb_n_blocks self * (hb_n_blocks self + 1) / 2
        <-> forall p q, valid_pattern (hb_n_blocks self) p ->
              valid_pattern (hb_n_blocks self) q ->
              hb_hfunc self p = hb_hfunc self q -> p = q).
Proof.
  intros Hn. eexists. split; [reflexivity|].
  set (n := hb_n_blocks self) in *. set (gen := create_pattern_generator n).
  set (cost := λ p, hb_func self p (hb_series self)).
  assert (Z.of_nat (length gen) = n * (n + 1) / 2) as Hcount.
  { unfold gen. rewrite <- (length_fmap (λ p, calculate_pattern_hash p n)).
    rewrite hash_create_pattern_generator, length_seqZ by done.
    fold (total_patterns n). rewrite Z2Nat.id; [done|].
    pose proof (total_patterns_double n). nia. }
  assert (NoDup gen) as Hnd.
  { apply (StronglySorted_irrefl_NoDup pattern_lt).
    - intros [a l]. unfold pattern_lt. cbn. lia.
    - apply create_pattern_generator_sorted. }
  pose proof (size_populate_le (hb_hfunc self) cost gen) as Hle.
  split; [lia|]. rewrite <- Hcount. split.
  - intros Hsize p q Hp%elem_of_create_pattern_generator
      Hq%elem_of_create_pattern_generator Hkey.
    fold n gen in Hp, Hq. destruct (decide (p = q)) as [|Hne]; [done|].
    exfalso.
    assert (forall p q, p ∈ gen -> q ∈ gen -> p <> q ->
              hb_hfunc self p = hb_hfunc self q ->
              exists l1 l2 l3, gen = l1 ++ p :: l2 ++ q :: l3
                               \/ gen = l1 ++ q :: l2 ++ p :: l3) as Hsplit.
    { clear. intros p q Hp Hq Hne _.
      apply list_elem_of_split in Hp as (l1 & l2 & ->).
      apply elem_of_app in Hq as [Hq | Hq].
      - apply list_elem_of_split in Hq as (a & b & ->).
        exists a, b, l2. right. by rewrite <- app_assoc.
      - apply elem_of_cons in Hq as [-> | Hq]; [done|].
        apply list_elem_of_split in Hq as (a & b & ->).
        exists l1, a, b. by left. }
    destruct (Hsplit p q Hp Hq Hne Hkey) as (l1 & l2 & l3 & [Hgen | Hgen]).
    + pose proof (size_populate_collision (hb_hfunc self) cost l1 l2 l3 p q Hkey)
        as Hlt.
      rewrite <- Hgen in Hlt. unfold gen, n, cost in *. lia.
    + pose proof (size_populate_collision (hb_hfunc self) cost l1 l2 l3 q p
                    (eq_sym Hkey)) as Hlt.
      rewrite <- Hgen in Hlt. unfold gen, n, cost in *. lia.
  - intros Hinj. f_equal. apply size_populate_NoDup.
    apply NoDup_fmap_2_strong; [|done].
    intros p q Hp%elem_of_create_pattern_generator
      Hq%elem_of_create_pattern_generator. by apply Hinj.
Qed.

Lemma create_table_size_witness :
  exists table : gmap Z Z,
    hb_table (create_table (HashBrown_init tt 2 (λ p _, p.1) (λ _, 0)))
    = Some table
    /\ Z.of_nat (size table) <= 2 * (2 + 1) / 2.
Proof.
  destruct (create_table_size
              (HashBrown_init tt 2 (λ p (_ : unit), p.1) (λ _, 0)))
    as (table & Ht & Hle & _); [cbn; lia|].
  exists table. split; assumption.
Defined.

(** ** The store as scratch space *)

Section scratch.

(** A decision array has one tiling by closed runs. *)
Lemma runs_unique (arr : list Z) (n a : Z) (ps qs : list pattern) :
  tiles a ps n -> tiles a qs n ->
  Forall (λ p, is_run arr p /\ (p.1 + p.2 < n -> closed_at arr p)) ps ->
  Forall (λ p, is_run arr p /\ (p.1 + p.2 < n -> closed_at arr p)) qs ->
  ps = qs.
Proof.
  revert a qs. induction ps as [|[a1 l1] ps IH]; intros a qs Hps Hqs Fps Fqs.
  - destruct qs as [|q qs]; [done|]. cbn in Hps, Hqs.
    destruct Hqs as (_ & Hlen & Hrest).
    pose proof (tiles_length_le _ _ _ Hrest). lia.
  - destruct qs as [|[a2 l2] qs].
    { cbn in Hps, Hqs. destruct Hps as (_ & Hlen & Hrest).
      pose proof (tiles_length_le _ _ _ Hrest). lia. }
    cbn [tiles fst snd] in Hps, Hqs.
    destruct Hps as (-> & Hl1 & Hps), Hqs as (-> & Hl2 & Hqs).
    apply Forall_cons in Fps as [[Hrun1 Hclosed1] Fps].
    apply Forall_cons in Fqs as [[Hrun2 Hclosed2] Fqs].
    pose proof (tiles_length_le _ _ _ Hps) as Hle1.
    pose proof (tiles_length_le _ _ _ Hqs) as Hle2.
    cbn [fst snd] in *.
    assert (l1 = l2) as ->.
    { destruct (Z.lt_trichotomy l1 l2) as [Hlt | [-> | Hlt]]; [|done|].
      - destruct Hclosed1 as (x & Hx & Hne); [lia|]. cbn [fst snd] in Hx.
        rewrite (Hrun2 (a + l1 - 1)) in Hx by (cbn; lia). congruence.
      - destruct Hclosed2 as (x & Hx & Hne); [lia|]. cbn [fst snd] in Hx.
        rewrite (Hrun1 (a + l2 - 1)) in Hx by (cbn; lia). congruence. }
    f_equal. by apply (IH (a + l2)).
Qed.

End scratch.

(** X16: the keys returned do not depend on what the store holds: on two
    stores with room for the keys the function returns the same keys. *)
Theorem translate_segmentation_store_independent (arr store1 store2 : list Z) :
  arr <> [] ->
  (key_count arr <= length store1)%nat -> (key_count arr <= length store2)%nat ->
  exists keys store1' store2',
    translate_segmentation arr store1 = Ok (keys, store1')
    /\ translate_segmentation arr store2 = Ok (keys, store2').
Proof.
  intros Hne Hfit1 Hfit2.
  destruct (translate_segmentation_nonempty arr store1 Hne Hfit1)
    as (ps1 & Hrun1 & _ & Ht1 & Hr1).
  destruct (translate_segmentation_nonempty arr store2 Hne Hfit2)
    as (ps2 & Hrun2 & _ & Ht2 & Hr2).
  assert (ps1 = ps2) as <- by (by eapply runs_unique).
  eauto.
Qed.

Lemma translate_segmentation_store_independent_witness :
  exists keys store1' store2',
    translate_segmentation [0; 1] [0; 0] = Ok (keys, store1')
    /\ translate_segmentation [0; 1] [3; 4; 5] = Ok (keys, store2').
Proof.
  apply (translate_segmentation_store_independent [0; 1] [0; 0] [3; 4; 5]).
  - discriminate.
  - vm_compute. lia.
  - vm_compute. lia.
Defined.

(** ** The 64-bit evaluation of the key formula *)

Section int64.

Lemma int64_wrap_small (z : Z) :
  - 2 ^ 63 <= z < 2 ^ 63 -> int64_wrap z = z.
Proof.
  intros Hz. unfold int64_wrap. rewrite Z.mod_small; lia.
Qed.

Lemma calculate_pattern_hash_int64_small (pos len arrlen : Z) :
  0 <= pos <= 2 ^ 31 -> 1 <= len <= 2 ^ 31 -> 0 <= arrlen <= 2 ^ 31 ->
  len <= 2 * arrlen + 2 ->
  calculate_pattern_hash_int64 (pos, len) arrlen
  = calculate_pattern_hash (pos, len) arrlen.
Proof.
  intros Hpos Hlen Harr Hfactor.
  unfold calculate_pattern_hash_int64, calculate_pattern_hash.
  rewrite (int64_wrap_small (len - 1)) by lia.
  rewrite (int64_wrap_small (2 * arrlen)) by lia.
  rewrite (int64_wrap_small (len - 2)) by lia.
  set (f := len - 1). set (t := 2 * arrlen - (len - 2)).
  assert (0 <= f <= 2 ^ 31 - 1) as Hf by (unfold f; lia).
  assert (0 <= t <= 2 ^ 32 + 1) as Ht by (unfold t; lia).
  assert (0 <= f * t <= (2 ^ 31 - 1) * (2 ^ 32 + 1)) as Hprod.
  { split; [apply Z.mul_nonneg_nonneg; lia|].
    apply Z.mul_le_mono_nonneg; lia. }
  assert (0 <= f * t / 2 <= f * t) as Hhalf.
  { split; [apply Z.div_pos; lia|]. apply Z.div_le_upper_bound; lia. }
  rewrite (int64_wrap_small t) by lia.
  rewrite (int64_wrap_small (f * t)) by lia.
  rewrite (int64_wrap_small (f * t / 2)) by lia.
  rewrite int64_wrap_small by lia. done.
Qed.

End int64.

(** X17: for up to [max_blocks] blocks, on a valid pattern and with
    [arrlen = n_blocks] or [arrlen = n_blocks - 1], no operation of the key
    formula leaves the 64-bit range: the compiled evaluation gives the
    exact value. *)
Theorem calculate_pattern_hash_int64_exact (n_blocks : Z) (p : pattern) :
  1 <= n_blocks <= max_blocks -> valid_pattern n_blocks p ->
  calculate_pattern_hash_int64 p n_blocks = calculate_pattern_hash p n_blocks
  /\ calculate_pattern_hash_int64 p (n_blocks - 1)
     = calculate_pattern_hash p (n_blocks - 1).
Proof.
  unfold max_blocks. intros Hn Hp. destruct p as [pos len].
  destruct Hp as (Hpos & Hlen & Hsum); cbn [fst snd] in *.
  split; apply calculate_pattern_hash_int64_small; lia.
Qed.

Lemma calculate_pattern_hash_int64_exact_witness :
  calculate_pattern_hash_int64 (1, 2) 3 = calculate_pattern_hash (1, 2) 3
  /\ calculate_pattern_hash_int64 (1, 2) (3 - 1)
     = calculate_pattern_hash (1, 2) (3 - 1).
Proof.
  apply (calculate_pattern_hash_int64_exact 3 (1, 2)).
  - unfold max_blocks. lia.
  - unfold valid_pattern. cbn. lia.
Defined.
